(** * Multi_Agent_AI: text chunking, text statistics and the translation cache

    A shallow embedding of [utils/text_processor.py] and of
    [TranslationTool] in [utils/tools.py], with the properties their
    specification states about them; and, further down, of the loop of [main]
    that translates the chunks, of the text clean-up of
    [WebScrapingTool.extract_text_from_url] and of the defaults of
    [VectorStore.add_documents], with properties read off the code.

    Python strings are sequences of Unicode code points: a character is its
    code point ([ord c]) and a string is a list of characters, so [len] is
    [length].  Python integers are unbounded: sizes are in [Z]. *)

From Stdlib Require Import ZArith NArith List Ascii String Bool Lia.
From stdpp Require Import base list gmap pretty.
Import ListNotations.

Local Open Scope Z_scope.

(** ** Strings *)

Definition char := N.
Abbreviation str := (list char).

(** A literal of the Python source. *)
Definition py (s : string) : str := map N_of_ascii (list_ascii_of_string s).

Definition len (s : str) : Z := Z.of_nat (length s).

(** [str.isspace] on one character, the test behind [\s] in a [str] pattern,
    [str.strip()] and [str.split()]: the characters CPython lists in
    [_PyUnicode_IsWhitespace]. *)
Definition is_space (c : char) : bool :=
  ((9 <=? c) && (c <=? 13) || (28 <=? c) && (c <=? 32)
   || (c =? 133) || (c =? 160) || (c =? 5760)
   || (8192 <=? c) && (c <=? 8202)
   || (c =? 8232) || (c =? 8233) || (c =? 8239) || (c =? 8287)
   || (c =? 12288))%N.

(** The class [[.!?]] of the sentence pattern. *)
Definition is_term (c : char) : bool :=
  ((c =? 46) || (c =? 33) || (c =? 63))%N.

Definition SPACE : str := py " ".

(** [s.lstrip()], [s.rstrip()], [s.strip()]. *)
Fixpoint lstrip (s : str) : str :=
  match s with
  | [] => []
  | c :: s' => if is_space c then lstrip s' else s
  end.

Definition rstrip (s : str) : str := rev (lstrip (rev s)).

Definition strip (s : str) : str := rstrip (lstrip s).

(** [sep.join(l)]. *)
Fixpoint join (sep : str) (l : list str) : str :=
  match l with
  | [] => []
  | [x] => x
  | x :: l' => x ++ sep ++ join sep l'
  end.

(** [s.split()]: the maximal runs of non-whitespace characters, in order.
    [w] is the word being scanned. *)
Fixpoint split_ws (w : str) (s : str) : list str :=
  match s with
  | [] => match w with [] => [] | _ => [w] end
  | c :: s' =>
      if is_space c
      then match w with [] => split_ws [] s' | _ => w :: split_ws [] s' end
      else split_ws (w ++ [c]) s'
  end.

Definition str_split (s : str) : list str := split_ws [] s.

(** [re.split(r'(?<=[.!?])\s+', text)].  A match starts at a whitespace
    character that follows one of [.!?] and takes the whole run of whitespace
    (the [+] is greedy); the pieces between the matches are returned, the
    last one too, also when it is empty.  The scan is left to right:
    [Plain], no match can start here; [AfterTerm], the character before is
    one of [.!?]; [InSep], inside a match. *)
Inductive scan := Plain | AfterTerm | InSep.

Fixpoint re_split_scan (m : scan) (cur : str) (s : str) : list str :=
  match s with
  | [] => [cur]
  | c :: s' =>
      if is_space c then
        match m with
        | Plain => re_split_scan Plain (cur ++ [c]) s'
        | AfterTerm => cur :: re_split_scan InSep [] s'
        | InSep => re_split_scan InSep cur s'
        end
      else re_split_scan (if is_term c then AfterTerm else Plain) (cur ++ [c]) s'
  end.

Definition re_split_sentences (text : str) : list str :=
  re_split_scan Plain [] text.

(** ** [split_into_chunks] *)

(** The three variables of a packing loop: the chunks closed so far, the
    pieces of the open chunk and its running size. *)
Record packer := Packer {
  chunks : list str;
  current_chunk : list str;
  current_size : Z
}.

(** [if current: chunks.append(' '.join(current))]. *)
Definition flush (chunks : list str) (current : list str) : list str :=
  match current with
  | [] => chunks
  | _ => chunks ++ [join SPACE current]
  end.

(** One turn of [for word in words], on [chunks], [temp_chunk], [temp_size]. *)
Definition word_step (max_chunk_size : Z) (st : packer) (word : str) : packer :=
  if current_size st + len word + 1 <=? max_chunk_size
  then Packer (chunks st) (current_chunk st ++ [word])
              (current_size st + len word + 1)
  else Packer (flush (chunks st) (current_chunk st)) [word] (len word).

(** One turn of [for sentence in sentences]. *)
Definition sentence_step (max_chunk_size : Z) (st : packer) (sentence : str)
  : packer :=
  let sentence := strip sentence in
  match sentence with
  | [] => st
  | _ =>
    if max_chunk_size <? len sentence then
      let st1 :=
        match current_chunk st with
        | [] => st
        | _ => Packer (flush (chunks st) (current_chunk st)) [] 0
        end in
      let words := str_split sentence in
      let tmp := foldl (word_step max_chunk_size) (Packer (chunks st1) [] 0) words in
      Packer (flush (chunks tmp) (current_chunk tmp))
             (current_chunk st1) (current_size st1)
    else if current_size st + len sentence + 1 <=? max_chunk_size
    then Packer (chunks st) (current_chunk st ++ [sentence])
                (current_size st + len sentence + 1)
    else Packer (flush (chunks st) (current_chunk st)) [sentence] (len sentence)
  end.

Definition split_into_chunks (text : str) (max_chunk_size : Z) : list str :=
  match text with
  | [] => []
  | _ =>
    let sentences := re_split_sentences text in
    let st := foldl (sentence_step max_chunk_size) (Packer [] [] 0) sentences in
    flush (chunks st) (current_chunk st)
  end.

Definition combine_chunks (chunks : list str) : str := join SPACE chunks.

(** ** [get_text_stats] *)

Record text_stats := TextStats {
  characters : Z;
  words : Z;
  sentences : Z
}.

Definition get_text_stats (text : str) : text_stats :=
  match text with
  | [] => TextStats 0 0 0
  | _ =>
    let sentences := re_split_sentences text in
    let words := str_split text in
    TextStats (len text) (Z.of_nat (length words)) (Z.of_nat (length sentences))
  end.

(** The sentences [split_into_chunks] works on: each piece of the split
    trimmed, the empty ones skipped. *)
Definition is_empty (s : str) : bool :=
  match s with [] => true | _ => false end.

Definition chunker_sentences (text : str) : list str :=
  List.filter (fun s => negb (is_empty s)) (map strip (re_split_sentences text)).

(** ** [TranslationTool] *)

(** [SUPPORTED_LANGUAGES] of [utils/config.py]. *)
Definition SUPPORTED_LANGUAGES : gmap str str :=
  list_to_map
    [ (py "en", py "English"); (py "es", py "Spanish"); (py "fr", py "French");
      (py "de", py "German"); (py "it", py "Italian"); (py "pt", py "Portuguese");
      (py "ru", py "Russian"); (py "zh", py "Chinese"); (py "ja", py "Japanese");
      (py "ko", py "Korean"); (py "bn", py "Bengali") ].

(** [target_lang in SUPPORTED_LANGUAGES]. *)
Definition supported (target_lang : str) : bool :=
  match SUPPORTED_LANGUAGES !! target_lang with
  | Some _ => true
  | None => false
  end.

(** What a call of [GoogleTranslator.translate] comes to: it returns a
    string; it returns a value that is no string, as [None]; or it raises an
    [Exception]. *)
Inductive answer :=
| Gives (translated : str)
| GivesNone
| Raises.

(** The translation service behind [GoogleTranslator.translate]: from what
    it remembers, the target language and the text, what the call comes to
    and what the service remembers afterwards. *)
Record Backend := {
  service : Type;
  respond : service -> str -> str -> answer * service
}.

(** The translator object: its [target] attribute and the service. *)
Record GoogleTranslator (B : Backend) := {
  target : str;
  remote : service B
}.
Arguments target {B} _.
Arguments remote {B} _.

(** What a call of [translate_text] does besides returning, in order. *)
Inductive event :=
| CacheLookup (key : str)
| CacheRead (key : str)
| CacheWrite (key value : str)
| BackendCall (target chunk : str) (a : answer).

Record TranslationTool (B : Backend) := {
  translator : GoogleTranslator B;
  translation_cache : gmap str str;
  log : list event
}.
Arguments translator {B} _.
Arguments translation_cache {B} _.
Arguments log {B} _.

(** [TranslationTool()], the service in state [s]. *)
Definition new_tool (B : Backend) (s : service B) : TranslationTool B :=
  {| translator := {| target := py "en"; remote := s |};
     translation_cache := ∅;
     log := [] |}.

Inductive outcome :=
| Return (value : str)
| ValueError.

Definition record {B} (self : TranslationTool B) (e : event) : TranslationTool B :=
  {| translator := translator self;
     translation_cache := translation_cache self;
     log := log self ++ [e] |}.

(** [self.translator.target = target_lang]. *)
Definition set_target {B} (self : TranslationTool B) (target_lang : str)
  : TranslationTool B :=
  {| translator := {| target := target_lang; remote := remote (translator self) |};
     translation_cache := translation_cache self;
     log := log self |}.

(** [self.translator.translate(chunk)]. *)
Definition translate {B} (self : TranslationTool B) (chunk : str)
  : answer * TranslationTool B :=
  let tr := translator self in
  let (a, s) := respond B (remote tr) (target tr) chunk in
  (a,
   {| translator := {| target := target tr; remote := s |};
      translation_cache := translation_cache self;
      log := log self ++ [BackendCall (target tr) chunk a] |}).

(** [self._translation_cache[cache_key] = result]. *)
Definition cache_write {B} (self : TranslationTool B) (cache_key result : str)
  : TranslationTool B :=
  {| translator := translator self;
     translation_cache := <[cache_key := result]> (translation_cache self);
     log := log self ++ [CacheWrite cache_key result] |}.

(** [range(0, stop, step)], for a positive [step]. *)
Definition py_range (stop step : Z) : list Z :=
  map (fun k => Z.of_nat k * step) (seq 0 (Z.to_nat ((stop + step - 1) / step))).

(** [text[i:j]], for [0 <= i <= j]: the end of the text cuts it short. *)
Definition slice (text : str) (i j : Z) : str :=
  take (Z.to_nat (j - i)) (drop (Z.to_nat i) text).

(** [[text[i:i + size] for i in range(0, len(text), size)]]. *)
Definition slices (size : Z) (text : str) : list str :=
  map (fun i => slice text i (i + size)) (py_range (len text) size).

(** [for chunk in chunks], the inner [try] with its [except].  An element of
    [translated_chunks] is whatever [translate] returned, a string or not
    ([None] here: no string), or the chunk when [translate] raised. *)
Fixpoint translate_chunks {B} (self : TranslationTool B) (chunks : list str)
    (translated_chunks : list (option str))
  : list (option str) * TranslationTool B :=
  match chunks with
  | [] => (translated_chunks, self)
  | chunk :: rest =>
      match translate self chunk with
      | (Gives translated, self') =>
          translate_chunks self' rest (translated_chunks ++ [Some translated])
      | (GivesNone, self') =>
          translate_chunks self' rest (translated_chunks ++ [None])
      | (Raises, self') =>
          translate_chunks self' rest (translated_chunks ++ [Some chunk])
      end
  end.

(** The elements of a list of Python values when each is a string. *)
Fixpoint strings (values : list (option str)) : option (list str) :=
  match values with
  | [] => Some []
  | Some s :: rest =>
      match strings rest with
      | Some parts => Some (s :: parts)
      | None => None
      end
  | None :: _ => None
  end.

(** [sep.join(values)]: [None] where Python raises the [TypeError], for an
    element that is no string. *)
Definition join_values (sep : str) (values : list (option str)) : option str :=
  match strings values with
  | Some parts => Some (join sep parts)
  | None => None
  end.

(** [translate_text].  What [translate] raises is caught chunk by chunk; what
    reaches the outer [except] is the [TypeError] of [' '.join] over a value
    that is no string: the text is returned then, after the calls of the
    service and before the cache is written. *)
Definition translate_text {B} (self : TranslationTool B) (text target_lang : str)
  : outcome * TranslationTool B :=
  if is_empty text || is_empty (strip text) then (Return text, self)
  else if negb (supported target_lang) then (ValueError, self)
  else if bool_decide (target_lang = py "en") && forallb (fun c => c <? 128)%N text
  then (Return text, self)
  else
    let cache_key := text ++ py "_" ++ target_lang in
    let self := record self (CacheLookup cache_key) in
    match translation_cache self !! cache_key with
    | Some cached => (Return cached, record self (CacheRead cache_key))
    | None =>
        let self := set_target self target_lang in
        let max_chunk_size := 5000 in
        let chunks := slices max_chunk_size text in
        let (translated_chunks, self) := translate_chunks self chunks [] in
        match join_values SPACE translated_chunks with
        | Some result => (Return result, cache_write self cache_key result)
        | None => (Return text, self)
        end
    end.

(** [clear_cache]. *)
Definition clear_cache {B} (self : TranslationTool B) : TranslationTool B :=
  {| translator := translator self;
     translation_cache := ∅;
     log := log self |}.

(** The calls of the service among the events. *)
Definition is_backend_call (e : event) : bool :=
  match e with BackendCall _ _ _ => true | _ => false end.

Definition backend_calls (l : list event) : nat :=
  length (List.filter is_backend_call l).

(** A service for the examples: it answers every text with that text, and
    counts nothing. *)
Definition echo : Backend :=
  {| service := unit; respond := fun s _ text => (Gives text, s) |}.

(** A service that is down: every call raises. *)
Definition down : Backend :=
  {| service := unit; respond := fun s _ _ => (Raises, s) |}.


(** A service that answers its first call ([true]) with the text in
    brackets and returns [None] from then on. *)
Definition fading : Backend :=
  {| service := bool;
     respond := fun s _ text =>
       (if s then Gives (py "[" ++ text ++ py "]") else GivesNone, false) |}.

(** ** The vocabulary of the statements *)

(** The text is empty or has whitespace only. *)
Definition whitespace_only (text : str) : bool := forallb is_space text.

(** What the service answers to the chunks, asked one after the other for
    the language [target] from the state [s] on, and its state afterwards. *)
Fixpoint ask {B : Backend} (s : service B) (target : str) (chunks : list str)
  : list answer * service B :=
  match chunks with
  | [] => ([], s)
  | chunk :: rest =>
      let (a, s') := respond B s target chunk in
      let (answers, s'') := ask s' target rest in
      (a :: answers, s'')
  end.

(** The call returned a value that is no string. *)
Definition no_string (a : answer) : bool :=
  match a with
  | GivesNone => true
  | _ => false
  end.

(** What stands for the chunk in a result that is joined, where each call
    returned a string or raised: the translation, or the chunk itself when
    the call raised. *)
Definition best_effort (chunk : str) (a : answer) : str :=
  match a with
  | Gives translated => translated
  | _ => chunk
  end.

(** The Python value that the loop appends for the chunk. *)
Definition appended (chunk : str) (a : answer) : option str :=
  match a with
  | Gives translated => Some translated
  | GivesNone => None
  | Raises => Some chunk
  end.

(** Every sentence longer than [n] already has its words one space apart. *)
Definition evenly_spaced (n : Z) (text : str) : bool :=
  forallb (fun s => (len s <=? n) || bool_decide (join SPACE (str_split s) = s))
          (chunker_sentences text).

(** Whitespace only, or nothing. *)
Definition blank (s : str) : Prop := Forall (fun c => is_space c = true) s.

(** One word: some characters, none of them whitespace. *)
Definition is_word (w : str) : Prop :=
  w <> [] /\ Forall (fun c => is_space c = false) w.

(** A closed chunk fits, or is too long by itself and one of the words [W]
    a long sentence is cut into. *)
Definition chunk_ok (max_chunk_size : Z) (W : str -> Prop) (c : str) : Prop :=
  len c <= max_chunk_size \/ (max_chunk_size < len c /\ W c).

(** What the word loop keeps true. *)
Definition word_inv (max_chunk_size : Z) (W : str -> Prop) (st : packer) : Prop :=
  Forall (chunk_ok max_chunk_size W) (chunks st) /\
  Forall W (current_chunk st) /\
  (current_chunk st = [] -> current_size st = 0) /\
  (current_chunk st <> [] ->
     len (join SPACE (current_chunk st)) <= current_size st /\
     (current_size st <= max_chunk_size \/ exists w, current_chunk st = [w])).

(** What the sentence loop keeps true. *)
Definition sentence_inv (max_chunk_size : Z) (W : str -> Prop) (st : packer) : Prop :=
  Forall (chunk_ok max_chunk_size W) (chunks st) /\
  (current_chunk st = [] -> current_size st = 0) /\
  (current_chunk st <> [] ->
     len (join SPACE (current_chunk st)) <= current_size st /\
     current_size st <= max_chunk_size).

(** The words of everything packed so far. *)
Definition packed_words (st : packer) : list str :=
  concat (map str_split (chunks st)) ++ concat (map str_split (current_chunk st)).

(** Some word stands in [c]. *)
Definition has_word (c : str) : Prop := str_split c <> [].

(** No closed chunk and no piece of the open one is blank. *)
Definition word_bearing (st : packer) : Prop :=
  Forall has_word (chunks st) /\ Forall has_word (current_chunk st).

(** [s] does not start with whitespace. *)
Definition head_nonspace (s : str) : Prop :=
  match s with [] => True | c :: _ => is_space c = false end.

(** [s] neither starts nor ends with whitespace. *)
Definition trimmed (s : str) : Prop := head_nonspace s /\ head_nonspace (rev s).

(** The sentence loop and the last flush, on sentences already trimmed. *)
Definition pack (n : Z) (ss : list str) : list str :=
  let st := foldl (sentence_step n) (Packer [] [] 0) ss in
  flush (chunks st) (current_chunk st).

(** What a trimmed sentence contributes to the chunks: itself, or its words
    when it is longer than the limit. *)
Definition pieces (n : Z) (s : str) : list str :=
  if n <? len s then str_split s else [s].

(** The closed chunks, then the pieces of the open one. *)
Definition flat (st : packer) : list str := chunks st ++ current_chunk st.

(** [s] ends with one of [.!?]. *)
Fixpoint ends_term (s : str) : bool :=
  match s with
  | [] => false
  | [t] => is_term t
  | _ :: s' => ends_term s'
  end.

(** No place inside [s] where the sentence pattern matches. *)
Fixpoint boundary_free (s : str) : bool :=
  match s with
  | t :: s' =>
      match s' with
      | c :: _ => negb (is_term t && is_space c) && boundary_free s'
      | [] => true
      end
  | [] => true
  end.

(** The state of the scan after [cur], outside a match. *)
Definition mode_of (cur : str) : scan :=
  if ends_term cur then AfterTerm else Plain.

(** A trimmed, non-empty piece of the sentence split. *)
Definition sentence_ok (s : str) : Prop :=
  s <> [] /\ trimmed s /\ boundary_free s = true.

(** The list of sentences of a text: all but the last end with [.!?]. *)
Inductive sentence_list : list str -> Prop :=
| sentence_list_nil : sentence_list []
| sentence_list_one s : sentence_ok s -> sentence_list [s]
| sentence_list_more s s' ss :
    sentence_ok s -> ends_term s = true -> sentence_list (s' :: ss) ->
    sentence_list (s :: s' :: ss).

(** A sentence that is cut into words is put back with single spaces. *)
Definition single_spaced (n : Z) (s : str) : Prop :=
  n < len s -> join SPACE (str_split s) = s.

(** ** The Translate Text branch of [main] *)

(** How the branch goes, up to the end of its loop over the chunks: nothing
    was entered; an exception left the [try]; or every chunk was translated
    (the branch goes on to the vector store and the crew). *)
Inductive translation_run :=
| NoText
| TranslationError
| Translated (translated_chunks : list str).

(** [for i, chunk in enumerate(chunks)]: [translate_text] on each chunk, with
    the tool shared by the calls.  [None]: a call raised. *)
Fixpoint translate_each {B} (self : TranslationTool B) (chunks : list str)
    (target_lang : str) (translated_chunks : list str)
  : option (list str) * TranslationTool B :=
  match chunks with
  | [] => (Some translated_chunks, self)
  | chunk :: rest =>
      match translate_text self chunk target_lang with
      | (Return translated_chunk, self') =>
          translate_each self' rest target_lang (translated_chunks ++ [translated_chunk])
      | (ValueError, self') => (None, self')
      end
  end.

(** [if text:], the clearing of a cache of more than 1000 entries,
    [split_into_chunks(text)] with its default limit, and the loop. *)
Definition main_translate {B} (translation_tool : TranslationTool B)
    (text target_lang : str) : translation_run * TranslationTool B :=
  match text with
  | [] => (NoText, translation_tool)
  | _ =>
    let translation_tool :=
      if 1000 <? Z.of_nat (size (translation_cache translation_tool))
      then clear_cache translation_tool
      else translation_tool in
    let chunks := split_into_chunks text 5000 in
    match translate_each translation_tool chunks target_lang [] with
    | (Some translated_chunks, translation_tool) =>
        (Translated translated_chunks, translation_tool)
    | (None, translation_tool) => (TranslationError, translation_tool)
    end
  end.

(** ** [process_batch] *)

Definition process_batch (texts : list str) (max_chunk_size : Z)
  : list (str * list str * text_stats) :=
  foldl (fun results text =>
           let chunks := split_into_chunks text max_chunk_size in
           let stats := get_text_stats text in
           results ++ [(text, chunks, stats)])
        [] texts.

(** ** More vocabulary *)

(** Not empty, and neither starts nor ends with whitespace. *)
Definition tidy (c : str) : Prop := c <> [] /\ trimmed c.

Definition tidy_packer (st : packer) : Prop :=
  Forall tidy (chunks st) /\ Forall tidy (current_chunk st).

(** Arithmetic on lengths. *)
Ltac len_lia := unfold len in *; cbn [length] in *; lia.

(** ** [VectorStore.add_documents] *)

(** A value of a metadata dictionary. *)
Inductive scalar :=
| Str (s : str)
| Int (i : Z).

(** [str(i)], for the [i] of a [range]. *)
Definition str_of_nat (i : nat) : str := py (pretty i).

(** What [self.collection.add] is called with. *)
Record collection_add := {
  documents : list str;
  metadatas : list (gmap str scalar);
  ids : list str
}.

Definition add_documents (documents : list str)
    (metadatas : option (list (gmap str scalar))) (ids : option (list str))
  : collection_add :=
  let metadatas :=
    match metadatas with
    | None => map (fun i => {[ py "source" := Str (py "document_" ++ str_of_nat i) ]})
                  (seq 0 (length documents))
    | Some metadatas => metadatas
    end in
  let ids :=
    match ids with
    | None => map (fun i => py "doc_" ++ str_of_nat i) (seq 0 (length documents))
    | Some ids => ids
    end in
  {| documents := documents; metadatas := metadatas; ids := ids |}.

(** ** [WebScrapingTool.extract_text_from_url] *)

Definition NEWLINE : str := [10%N].

(** The line boundaries of [str.splitlines()]. *)
Definition is_linebreak (c : char) : bool :=
  ((c =? 10) || (c =? 13) || (c =? 11) || (c =? 12) || (c =? 28) || (c =? 29)
   || (c =? 30) || (c =? 133) || (c =? 8232) || (c =? 8233))%N.

(** [s.splitlines()]: the text cut at every line boundary, a carriage return
    with the line feed after it being one boundary; no empty line for the end
    of the text.  [after_cr]: the character before was a carriage return. *)
Fixpoint splitlines_scan (after_cr : bool) (cur : str) (s : str) : list str :=
  match s with
  | [] => match cur with [] => [] | _ => [cur] end
  | c :: s' =>
      if after_cr && (c =? 10)%N then splitlines_scan false cur s'
      else if is_linebreak c then cur :: splitlines_scan (c =? 13)%N [] s'
      else splitlines_scan false (cur ++ [c]) s'
  end.

Definition splitlines (s : str) : list str := splitlines_scan false [] s.

Definition starts_with_space (s : str) : bool :=
  match s with c :: _ => (c =? 32)%N | [] => false end.

(** [s.split("  ")]: the text cut at every two spaces, from the left.
    [skip]: the character is the second space of a separator. *)
Fixpoint split_spaces_scan (skip : bool) (cur : str) (s : str) : list str :=
  match s with
  | [] => [cur]
  | c :: s' =>
      if skip then split_spaces_scan false cur s'
      else if (c =? 32)%N && starts_with_space s'
      then cur :: split_spaces_scan true [] s'
      else split_spaces_scan false (cur ++ [c]) s'
  end.

Definition split_double_space (s : str) : list str := split_spaces_scan false [] s.

(** [extract_text_from_url], from [soup.get_text()] on: [page_text] is what
    the page gives, [None] when fetching or parsing raised. *)
Definition extract_text_from_url (page_text : option str) : str :=
  match page_text with
  | None => []
  | Some text =>
      let lines := map strip (splitlines text) in
      let chunks := map strip (concat (map split_double_space lines)) in
      join NEWLINE (List.filter (fun chunk => negb (is_empty chunk)) chunks)
  end.

(** Two characters that may stand side by side in a cleaned text: not two
    spaces, and no line feed beside whitespace. *)
Definition good_pair (a b : char) : bool :=
  negb ((a =? 32)%N && (b =? 32)%N)
  && negb ((a =? 10)%N && is_space b)
  && negb (is_space a && (b =? 10)%N).

Fixpoint well_spaced (s : str) : bool :=
  match s with
  | a :: s' =>
      match s' with
      | b :: _ => good_pair a b && well_spaced s'
      | [] => true
      end
  | [] => true
  end.

(** ** [format_stats] *)

(** [str(n)] for [n >= 0]: the decimal digits. *)
Definition digits (n : N) : str := py (pretty n).

(** [str(n)]. *)
Definition str_of_int (n : Z) : str :=
  if n <? 0 then 45%N :: digits (Z.abs_N n) else digits (Z.abs_N n).

(** The grouping of the format [,], on the digits from the last to the
    first: a comma after every third digit that has a digit after it.  [k]
    counts the digits since the last comma. *)
Fixpoint group_thousands (k : nat) (rev_digits : str) : str :=
  match rev_digits with
  | [] => []
  | d :: rest =>
      match k, rest with
      | 2%nat, _ :: _ => d :: 44%N :: group_thousands 0 rest
      | _, _ => d :: group_thousands (S k) rest
      end
  end.

(** [f"{n:,}"]. *)
Definition format_thousands (n : Z) : str :=
  let grouped := rev (group_thousands 0 (rev (digits (Z.abs_N n)))) in
  if n <? 0 then 45%N :: grouped else grouped.

Definition format_stats (stats : text_stats) : str :=
  py "Characters: " ++ format_thousands (characters stats)
  ++ py " | Words: " ++ format_thousands (words stats)
  ++ py " | Sentences: " ++ format_thousands (sentences stats).

(** Not a comma. *)
Definition no_comma (c : char) : bool := negb (c =? 44)%N.

(** * Lemmas *)

(** ** The model on small texts *)

Example ex_split1 :
  split_into_chunks (py "a. b. c.") 5 = [py "a."; py "b. c."].
Proof. vm_compute. reflexivity. Qed.

Example ex_split2 :
  split_into_chunks (py "aaa bbb. c") 5 = [py "aaa"; py "bbb."; py "c"].
Proof. vm_compute. reflexivity. Qed.

Example ex_resplit :
  re_split_sentences (py "a. .  b") = [py "a."; py "."; py "b"].
Proof. vm_compute. reflexivity. Qed.

(** ** Whitespace and words *)

Lemma is_term_not_space c : is_term c = true -> is_space c = false.
Proof.
  unfold is_term, is_space. intros H.
  repeat (apply orb_prop in H; destruct H as [H|H]);
    apply N.eqb_eq in H; subst c; reflexivity.
Qed.

Lemma lstrip_decomp s : exists t, blank t /\ s = t ++ lstrip s.
Proof.
  induction s as [|c s IH]; simpl.
  - exists []. split; [constructor | reflexivity].
  - destruct (is_space c) eqn:Hc.
    + destruct IH as (t & Ht & Heq). exists (c :: t). split.
      * constructor; assumption.
      * simpl. congruence.
    + exists []. split; [constructor | reflexivity].
Qed.

Lemma rstrip_decomp s : exists t, blank t /\ s = rstrip s ++ t.
Proof.
  destruct (lstrip_decomp (rev s)) as (t & Ht & Heq).
  exists (rev t). split.
  - apply Forall_rev. exact Ht.
  - unfold rstrip. rewrite <- rev_app_distr, <- Heq, rev_involutive. reflexivity.
Qed.

Lemma strip_decomp s : exists t u, blank t /\ blank u /\ s = t ++ strip s ++ u.
Proof.
  destruct (lstrip_decomp s) as (t & Ht & Hs).
  destruct (rstrip_decomp (lstrip s)) as (u & Hu & Hl).
  exists t, u. unfold strip. split; [exact Ht|]. split; [exact Hu|]. congruence.
Qed.

Lemma lstrip_blank s : blank s -> lstrip s = [].
Proof.
  induction 1 as [|c s Hc _ IH]; simpl; [reflexivity|]. rewrite Hc. exact IH.
Qed.

Lemma strip_blank s : blank s -> strip s = [].
Proof. intros H. unfold strip. rewrite lstrip_blank by exact H. reflexivity. Qed.

Lemma lstrip_nil_blank s : lstrip s = [] -> blank s.
Proof.
  induction s as [|c s IH]; simpl; intros H; [constructor|].
  destruct (is_space c) eqn:Hc; [|discriminate].
  constructor; [exact Hc | apply IH; exact H].
Qed.

Lemma strip_nil_blank s : strip s = [] -> blank s.
Proof.
  intros H. destruct (strip_decomp s) as (t & u & Ht & Hu & Hs).
  rewrite H in Hs. rewrite Hs. simpl. apply Forall_app. split; assumption.
Qed.

(** *** [str.split()] *)

Lemma split_ws_sep w a c b :
  is_space c = true ->
  split_ws w (a ++ c :: b) = split_ws w a ++ split_ws [] b.
Proof.
  intros Hc. revert w. induction a as [|d a IH]; intros w; simpl.
  - rewrite Hc. destruct w; reflexivity.
  - destruct (is_space d).
    + destruct w; rewrite IH; reflexivity.
    + apply IH.
Qed.

Lemma split_ws_blank s : blank s -> split_ws [] s = [].
Proof.
  induction 1 as [|c s Hc _ IH]; simpl; [reflexivity|]. rewrite Hc. exact IH.
Qed.

Lemma split_ws_blank_r w a t : blank t -> split_ws w (a ++ t) = split_ws w a.
Proof.
  intros Ht. destruct Ht as [|c t Hc Ht].
  - rewrite app_nil_r. reflexivity.
  - rewrite split_ws_sep by exact Hc.
    rewrite split_ws_blank by exact Ht. apply app_nil_r.
Qed.

Lemma split_ws_blank_l t s : blank t -> split_ws [] (t ++ s) = split_ws [] s.
Proof.
  induction 1 as [|c t Hc _ IH]; simpl; [reflexivity|]. rewrite Hc. exact IH.
Qed.

Lemma str_split_strip s : str_split (strip s) = str_split s.
Proof.
  destruct (strip_decomp s) as (t & u & Ht & Hu & Hs).
  unfold str_split. rewrite Hs at 2.
  rewrite split_ws_blank_l by exact Ht.
  rewrite split_ws_blank_r by exact Hu. reflexivity.
Qed.

Lemma split_ws_word w s :
  Forall (fun c => is_space c = false) s -> w ++ s <> [] ->
  split_ws w s = [w ++ s].
Proof.
  intros Hs. revert w. induction Hs as [|c s Hc _ IH]; intros w Hne; simpl.
  - rewrite app_nil_r in *. destruct w; [congruence | reflexivity].
  - rewrite Hc. rewrite IH.
    + rewrite <- app_assoc. reflexivity.
    + rewrite <- app_assoc. exact Hne.
Qed.

Lemma str_split_word w : is_word w -> str_split w = [w].
Proof. intros [Hne Hw]. apply (split_ws_word [] w Hw Hne). Qed.

Lemma split_ws_words w s :
  Forall (fun c => is_space c = false) w ->
  Forall is_word (split_ws w s).
Proof.
  revert w. induction s as [|c s IH]; intros w Hw; simpl.
  - destruct w; constructor; [|constructor]. split; [discriminate | exact Hw].
  - destruct (is_space c) eqn:Hc.
    + destruct w.
      * apply IH. constructor.
      * constructor; [split; [discriminate | exact Hw] | apply IH; constructor].
    + apply IH. apply Forall_app. split; [exact Hw | repeat constructor; exact Hc].
Qed.

Lemma str_split_words s : Forall is_word (str_split s).
Proof. apply split_ws_words. constructor. Qed.

Lemma str_split_join l :
  str_split (join SPACE l) = concat (map str_split l).
Proof.
  induction l as [|x l IH]; [reflexivity|].
  destruct l as [|y l].
  - simpl. rewrite app_nil_r. reflexivity.
  - change (join SPACE (x :: y :: l)) with (x ++ 32%N :: join SPACE (y :: l)).
    unfold str_split at 1. rewrite split_ws_sep by reflexivity.
    fold (str_split x). fold (str_split (join SPACE (y :: l))).
    rewrite IH. reflexivity.
Qed.

Lemma concat_str_split_words ws :
  Forall is_word ws -> concat (map str_split ws) = ws.
Proof.
  induction 1 as [|w ws Hw _ IH]; simpl; [reflexivity|].
  rewrite str_split_word by exact Hw. rewrite IH. reflexivity.
Qed.

(** *** The sentence split keeps the words *)

Lemma re_split_scan_words m cur s :
  (m = InSep -> cur = []) ->
  concat (map str_split (re_split_scan m cur s)) = str_split (cur ++ s).
Proof.
  revert m cur. induction s as [|c s IH]; intros m cur Hm; simpl.
  - rewrite !app_nil_r. reflexivity.
  - destruct (is_space c) eqn:Hc.
    + destruct m.
      * rewrite IH by discriminate. rewrite <- app_assoc. reflexivity.
      * simpl. rewrite IH by reflexivity. simpl.
        unfold str_split. rewrite split_ws_sep by exact Hc. reflexivity.
      * rewrite IH by exact Hm. rewrite (Hm eq_refl). simpl.
        unfold str_split. simpl. rewrite Hc. reflexivity.
    + rewrite IH.
      * rewrite <- app_assoc. reflexivity.
      * destruct (is_term c); discriminate.
Qed.

Lemma re_split_sentences_words text :
  concat (map str_split (re_split_sentences text)) = str_split text.
Proof. apply (re_split_scan_words Plain [] text). discriminate. Qed.

(** ** The packing loops *)

Lemma foldl_invariant {A B} (I : A -> Prop) (f : A -> B -> A) (R : B -> Prop) l :
  (forall a b, I a -> R b -> I (f a b)) ->
  Forall R l -> forall a, I a -> I (foldl f a l).
Proof.
  intros Hstep Hl. induction Hl as [|b l Hb _ IH]; intros a Ha; simpl.
  - exact Ha.
  - apply IH. apply Hstep; assumption.
Qed.

Lemma len_app a b : len (a ++ b) = len a + len b.
Proof. unfold len. rewrite length_app. lia. Qed.

Lemma join_snoc l w :
  l <> [] -> join SPACE (l ++ [w]) = join SPACE l ++ SPACE ++ w.
Proof.
  induction l as [|x l IH]; intros Hne; [congruence|].
  destruct l as [|y l].
  - reflexivity.
  - change (join SPACE ((x :: y :: l) ++ [w]))
      with (x ++ SPACE ++ join SPACE ((y :: l) ++ [w])).
    rewrite IH by discriminate.
    change (join SPACE (x :: y :: l)) with (x ++ SPACE ++ join SPACE (y :: l)).
    rewrite <- !app_assoc. reflexivity.
Qed.

Lemma len_join_snoc l w :
  l <> [] -> len (join SPACE (l ++ [w])) = len (join SPACE l) + 1 + len w.
Proof.
  intros Hne. rewrite join_snoc by exact Hne. rewrite !len_app.
  change (len SPACE) with 1. lia.
Qed.

Lemma Forall_flush (P : str -> Prop) chunks cur :
  Forall P chunks -> (cur <> [] -> P (join SPACE cur)) ->
  Forall P (flush chunks cur).
Proof.
  intros Hc Hj. destruct cur as [|x cur]; [exact Hc|].
  apply Forall_app. split; [exact Hc|].
  constructor; [apply Hj; discriminate | constructor].
Qed.

(** *** Sizes *)

Section Sizes.

Variable max_chunk_size : Z.

(** What is known of the words a long sentence is cut into. *)
Variable W : str -> Prop.

Lemma word_inv_flush st :
  word_inv max_chunk_size W st -> Forall (chunk_ok max_chunk_size W) (flush (chunks st) (current_chunk st)).
Proof.
  intros (Hc & HW & _ & Hcur). apply Forall_flush; [exact Hc|].
  intros Hne. destruct (Hcur Hne) as [Hlen [Hsz | [w Hw]]].
  - left. lia.
  - rewrite Hw in *. simpl.
    destruct (Z_le_gt_dec (len w) max_chunk_size) as [Hle|Hgt].
    + left. exact Hle.
    + right. split; [lia|]. inversion HW; assumption.
Qed.

Lemma word_step_inv st w :
  word_inv max_chunk_size W st -> W w -> word_inv max_chunk_size W (word_step max_chunk_size st w).
Proof.
  intros Hinv Hw. pose proof (word_inv_flush st Hinv) as Hfl.
  destruct Hinv as (Hc & HW & Hnil & Hcur).
  unfold word_step.
  destruct (Z.leb_spec (current_size st + len w + 1) max_chunk_size) as [Hfit|Hno].
  - unfold word_inv; simpl. split; [exact Hc|]. split.
    { apply Forall_app. split; [exact HW | repeat constructor; exact Hw]. }
    split.
    { intros H. destruct (current_chunk st); discriminate. }
    intros _. split; [|left; exact Hfit].
    destruct (current_chunk st) as [|x l] eqn:E.
    + simpl. rewrite (Hnil eq_refl). lia.
    + rewrite len_join_snoc by discriminate.
      destruct Hcur as [Hlen _]; [discriminate|]. lia.
  - unfold word_inv; simpl. split; [exact Hfl|]. split.
    { repeat constructor; exact Hw. }
    split; [discriminate|].
    intros _. split; [lia | right; eexists; reflexivity].
Qed.

Lemma sentence_inv_flush st :
  sentence_inv max_chunk_size W st -> Forall (chunk_ok max_chunk_size W) (flush (chunks st) (current_chunk st)).
Proof.
  intros (Hc & _ & Hcur). apply Forall_flush; [exact Hc|].
  intros Hne. destruct (Hcur Hne). left. lia.
Qed.

Lemma sentence_step_inv st s :
  sentence_inv max_chunk_size W st -> Forall W (str_split (strip s)) ->
  sentence_inv max_chunk_size W (sentence_step max_chunk_size st s).
Proof.
  intros Hinv Hws. pose proof (sentence_inv_flush st Hinv) as Hfl.
  unfold sentence_step.
  destruct (strip s) as [|c0 s0] eqn:Es; [exact Hinv|].
  rewrite <- Es in *. clear Es c0 s0.
  destruct Hinv as (Hc & Hnil & Hcur).
  destruct (Z.ltb_spec max_chunk_size (len (strip s))) as [Hlong|Hshort].
  - set (st1 := match current_chunk st with
                | [] => st
                | _ => Packer (flush (chunks st) (current_chunk st)) [] 0
                end).
    assert (H1 : Forall (chunk_ok max_chunk_size W) (chunks st1) /\ current_chunk st1 = []
                 /\ current_size st1 = 0).
    { subst st1. destruct (current_chunk st) eqn:E.
      - rewrite E. auto.
      - cbn [chunks current_chunk current_size]. auto. }
    destruct H1 as (Hc1 & Hcur1 & Hsz1).
    set (tmp := foldl _ _ _).
    assert (Htmp : word_inv max_chunk_size W tmp).
    { subst tmp. apply (foldl_invariant (word_inv max_chunk_size W) _ W).
      - intros a b. apply word_step_inv.
      - exact Hws.
      - unfold word_inv; simpl. split; [exact Hc1|].
        split; [constructor|]. split; [reflexivity | congruence]. }
    unfold sentence_inv; simpl. split; [apply word_inv_flush; exact Htmp|].
    rewrite Hcur1. split; [intros _; exact Hsz1 | congruence].
  - destruct (Z.leb_spec (current_size st + len (strip s) + 1) max_chunk_size)
      as [Hfit|Hno].
    + unfold sentence_inv; simpl. split; [exact Hc|]. split.
      { intros H. destruct (current_chunk st); discriminate. }
      intros _. split; [|exact Hfit].
      destruct (current_chunk st) as [|x l] eqn:E.
      * simpl. rewrite (Hnil eq_refl). lia.
      * rewrite len_join_snoc by discriminate.
        destruct Hcur as [Hlen _]; [discriminate|]. lia.
    + unfold sentence_inv; simpl. split; [exact Hfl|].
      split; [discriminate|]. intros _. lia.
Qed.

End Sizes.

(** *** Words *)

Lemma words_flush chunks cur :
  concat (map str_split (flush chunks cur))
  = concat (map str_split chunks) ++ concat (map str_split cur).
Proof.
  destruct cur as [|x cur].
  - simpl. rewrite app_nil_r. reflexivity.
  - change (flush chunks (x :: cur)) with (chunks ++ [join SPACE (x :: cur)]).
    rewrite map_app, concat_app. cbn [map concat].
    rewrite app_nil_r, str_split_join. reflexivity.
Qed.

Lemma word_step_words n st w :
  packed_words (word_step n st w) = packed_words st ++ str_split w.
Proof.
  unfold word_step, packed_words.
  destruct (_ <=? _); simpl.
  - rewrite map_app, concat_app. simpl. rewrite app_nil_r, app_assoc. reflexivity.
  - rewrite words_flush, app_nil_r. reflexivity.
Qed.

Lemma word_loop_words n ws st :
  packed_words (foldl (word_step n) st ws)
  = packed_words st ++ concat (map str_split ws).
Proof.
  revert st. induction ws as [|w ws IH]; intros st; simpl.
  - rewrite app_nil_r. reflexivity.
  - rewrite IH, word_step_words, <- app_assoc. reflexivity.
Qed.

Lemma sentence_step_words n st s :
  packed_words (sentence_step n st s) = packed_words st ++ str_split s.
Proof.
  rewrite <- (str_split_strip s). unfold sentence_step.
  destruct (strip s) as [|c0 s0] eqn:Es.
  { unfold str_split. simpl. rewrite app_nil_r. reflexivity. }
  rewrite <- Es. clear Es c0 s0.
  destruct (_ <? _).
  - set (st1 := match current_chunk st with
                | [] => st
                | _ => Packer (flush (chunks st) (current_chunk st)) [] 0
                end).
    assert (H1 : concat (map str_split (chunks st1)) = packed_words st
                 /\ current_chunk st1 = []).
    { subst st1. unfold packed_words. destruct (current_chunk st) eqn:E.
      - rewrite E. simpl. rewrite app_nil_r. auto.
      - cbn [chunks current_chunk]. rewrite <- E, words_flush. auto. }
    destruct H1 as [Hw1 Hcur1].
    unfold packed_words at 1. simpl. rewrite Hcur1. simpl. rewrite app_nil_r.
    rewrite words_flush.
    change (concat (map str_split (chunks ?t)) ++ concat (map str_split (current_chunk ?t)))
      with (packed_words t).
    rewrite word_loop_words. unfold packed_words at 1. simpl.
    rewrite app_nil_r, Hw1.
    rewrite concat_str_split_words by apply str_split_words. reflexivity.
  - destruct (_ <=? _); unfold packed_words; simpl.
    + rewrite map_app, concat_app. simpl. rewrite app_nil_r, app_assoc. reflexivity.
    + rewrite words_flush, app_nil_r. reflexivity.
Qed.

Lemma sentence_loop_words n ss st :
  packed_words (foldl (sentence_step n) st ss)
  = packed_words st ++ concat (map str_split ss).
Proof.
  revert st. induction ss as [|s ss IH]; intros st; simpl.
  - rewrite app_nil_r. reflexivity.
  - rewrite IH, sentence_step_words, <- app_assoc. reflexivity.
Qed.

Lemma split_into_chunks_words text n :
  concat (map str_split (split_into_chunks text n)) = str_split text.
Proof.
  unfold split_into_chunks. destruct text as [|c text]; [reflexivity|].
  cbv zeta. rewrite words_flush.
  change (concat (map str_split (chunks ?t)) ++ concat (map str_split (current_chunk ?t)))
    with (packed_words t).
  rewrite sentence_loop_words. apply re_split_sentences_words.
Qed.

(** *** No chunk is empty *)

Lemma split_ws_nil w s : split_ws w s = [] -> w = [] /\ blank s.
Proof.
  revert w. induction s as [|c s IH]; intros w H; simpl in H.
  - destruct w; [split; [reflexivity | constructor] | discriminate].
  - destruct (is_space c) eqn:Hc.
    + destruct w; [|discriminate].
      destruct (IH _ H) as [_ Hb]. split; [reflexivity | constructor; assumption].
    + destruct (IH _ H) as [Hw _]. destruct w; discriminate.
Qed.

Lemma str_split_nil_blank s : str_split s = [] -> blank s.
Proof. intros H. apply (split_ws_nil [] s H). Qed.

Lemma has_word_strip s : strip s <> [] -> has_word (strip s).
Proof.
  intros Hne H. apply Hne. apply strip_blank.
  rewrite str_split_strip in H. apply str_split_nil_blank. exact H.
Qed.

Lemma has_word_join l :
  l <> [] -> Forall has_word l -> has_word (join SPACE l).
Proof.
  intros Hne Hl. unfold has_word. rewrite str_split_join.
  destruct Hl as [|x l Hx _]; [congruence|].
  simpl. intros H. apply Hx. apply app_eq_nil in H. tauto.
Qed.

Lemma word_bearing_flush st :
  word_bearing st -> Forall has_word (flush (chunks st) (current_chunk st)).
Proof.
  intros [Hc Hcur]. apply Forall_flush; [exact Hc|].
  intros Hne. apply has_word_join; assumption.
Qed.

Lemma word_step_bearing n st w :
  word_bearing st -> is_word w -> word_bearing (word_step n st w).
Proof.
  intros Hst Hw. pose proof (word_bearing_flush st Hst) as Hfl.
  assert (Hhw : has_word w).
  { unfold has_word. rewrite str_split_word by exact Hw. discriminate. }
  destruct Hst as [Hc Hcur]. unfold word_step.
  destruct (_ <=? _); split; simpl; auto.
  apply Forall_app. split; [exact Hcur | repeat constructor; exact Hhw].
Qed.

Lemma sentence_step_bearing n st s :
  word_bearing st -> word_bearing (sentence_step n st s).
Proof.
  intros Hst. pose proof (word_bearing_flush st Hst) as Hfl.
  unfold sentence_step.
  destruct (strip s) as [|c0 s0] eqn:Es; [exact Hst|].
  assert (Hhw : has_word (strip s)).
  { apply has_word_strip. rewrite Es. discriminate. }
  rewrite <- Es in *. clear Es c0 s0.
  destruct Hst as [Hc Hcur].
  destruct (_ <? _).
  - set (st1 := match current_chunk st with
                | [] => st
                | _ => Packer (flush (chunks st) (current_chunk st)) [] 0
                end).
    assert (H1 : Forall has_word (chunks st1) /\ current_chunk st1 = []).
    { subst st1. destruct (current_chunk st) eqn:E.
      - rewrite E. auto.
      - cbn [chunks current_chunk]. auto. }
    destruct H1 as [Hc1 Hcur1].
    set (tmp := foldl _ _ _).
    assert (Htmp : word_bearing tmp).
    { subst tmp. apply (foldl_invariant word_bearing _ is_word).
      - intros a b. apply word_step_bearing.
      - apply str_split_words.
      - split; simpl; [exact Hc1 | constructor]. }
    split; simpl; [apply word_bearing_flush; exact Htmp|].
    rewrite Hcur1. constructor.
  - destruct (_ <=? _); split; simpl; auto.
    apply Forall_app. split; [exact Hcur | repeat constructor; exact Hhw].
Qed.

Lemma split_into_chunks_has_word text n :
  Forall has_word (split_into_chunks text n).
Proof.
  unfold split_into_chunks. destruct text as [|c text]; [constructor|].
  cbv zeta. apply word_bearing_flush.
  apply (foldl_invariant word_bearing _ (fun _ => True)).
  - intros a b Ha _. apply sentence_step_bearing. exact Ha.
  - apply List.Forall_forall. trivial.
  - split; constructor.
Qed.

Lemma split_into_chunks_sizes text n :
  Forall (chunk_ok n (fun w => In w (str_split text))) (split_into_chunks text n).
Proof.
  unfold split_into_chunks. destruct text as [|c text]; [constructor|].
  cbv zeta. apply sentence_inv_flush.
  apply (foldl_invariant (sentence_inv n _) _
           (fun s => In s (re_split_sentences (c :: text)))).
  - intros st s Hst Hs. apply sentence_step_inv; [exact Hst|].
    rewrite str_split_strip. apply List.Forall_forall. intros w Hw.
    rewrite <- re_split_sentences_words. apply in_concat.
    exists (str_split s). split; [apply in_map; exact Hs | exact Hw].
  - apply List.Forall_forall. trivial.
  - split; [constructor|]. split; simpl; [reflexivity | congruence].
Qed.

(** ** Trimmed strings *)

Lemma lstrip_head s : head_nonspace (lstrip s).
Proof.
  induction s as [|c s IH]; simpl; [exact I|].
  destruct (is_space c) eqn:Hc; [exact IH | exact Hc].
Qed.

Lemma lstrip_id s : head_nonspace s -> lstrip s = s.
Proof. destruct s as [|c s]; simpl; [reflexivity|]. intros ->. reflexivity. Qed.

Lemma lstrip_snoc s c : is_space c = false -> lstrip (s ++ [c]) = lstrip s ++ [c].
Proof.
  intros Hc. induction s as [|d s IH]; simpl.
  - rewrite Hc. reflexivity.
  - destruct (is_space d); [exact IH | reflexivity].
Qed.

Lemma rstrip_cons c s : is_space c = false -> rstrip (c :: s) = c :: rstrip s.
Proof.
  intros Hc. unfold rstrip. simpl rev at 2.
  rewrite lstrip_snoc by exact Hc. rewrite rev_app_distr. reflexivity.
Qed.

Lemma rstrip_head s : head_nonspace s -> head_nonspace (rstrip s).
Proof.
  destruct s as [|c s]; simpl; intros Hc; [exact I|].
  rewrite rstrip_cons by exact Hc. exact Hc.
Qed.

Lemma rstrip_last s : head_nonspace (rev (rstrip s)).
Proof. unfold rstrip. rewrite rev_involutive. apply lstrip_head. Qed.

Lemma rstrip_id s : head_nonspace (rev s) -> rstrip s = s.
Proof.
  intros H. unfold rstrip. rewrite lstrip_id by exact H. apply rev_involutive.
Qed.

Lemma strip_trimmed s : trimmed (strip s).
Proof.
  split; unfold strip.
  - apply rstrip_head, lstrip_head.
  - apply rstrip_last.
Qed.

Lemma strip_id s : trimmed s -> strip s = s.
Proof.
  intros [Hh Hl]. unfold strip. rewrite lstrip_id by exact Hh.
  apply rstrip_id. exact Hl.
Qed.

Lemma strip_strip s : strip (strip s) = strip s.
Proof. apply strip_id, strip_trimmed. Qed.

(** ** The chunker works on the trimmed, non-empty sentences *)

Lemma sentence_step_strip n st s :
  sentence_step n st (strip s) = sentence_step n st s.
Proof. unfold sentence_step. rewrite strip_strip. reflexivity. Qed.

Lemma sentence_step_skip n st s : strip s = [] -> sentence_step n st s = st.
Proof. intros H. unfold sentence_step. rewrite H. reflexivity. Qed.

Lemma sentence_loop_filter n l st :
  foldl (sentence_step n) st l
  = foldl (sentence_step n) st
      (List.filter (fun s => negb (is_empty s)) (map strip l)).
Proof.
  revert st. induction l as [|s l IH]; intros st; simpl; [reflexivity|].
  destruct (strip s) as [|c0 s0] eqn:Es; simpl.
  - rewrite sentence_step_skip by exact Es. apply IH.
  - rewrite <- Es, sentence_step_strip. apply IH.
Qed.

Lemma split_into_chunks_pack text n :
  split_into_chunks text n = pack n (chunker_sentences text).
Proof.
  unfold split_into_chunks, pack, chunker_sentences.
  destruct text as [|c text]; [reflexivity|].
  cbv zeta. rewrite <- sentence_loop_filter. reflexivity.
Qed.

(** ** Joining the chunks *)

Lemma join_cons x l : l <> [] -> join SPACE (x :: l) = x ++ SPACE ++ join SPACE l.
Proof. destruct l; [congruence | reflexivity]. Qed.

Lemma join_app a b :
  a <> [] -> b <> [] -> join SPACE (a ++ b) = join SPACE a ++ SPACE ++ join SPACE b.
Proof.
  intros Ha Hb. induction a as [|x a IH]; [congruence|].
  destruct a as [|y a].
  - simpl app. rewrite join_cons by exact Hb. reflexivity.
  - change ((x :: y :: a) ++ b) with (x :: ((y :: a) ++ b)).
    rewrite join_cons by discriminate. rewrite IH by discriminate.
    rewrite (join_cons x (y :: a)) by discriminate.
    rewrite <- !app_assoc. reflexivity.
Qed.

Lemma join_group a b c :
  b <> [] -> join SPACE (a ++ [join SPACE b] ++ c) = join SPACE (a ++ b ++ c).
Proof.
  intros Hb.
  assert (Hbc : join SPACE ([join SPACE b] ++ c) = join SPACE (b ++ c)).
  { destruct c as [|z c].
    - rewrite !app_nil_r. reflexivity.
    - rewrite (join_app b (z :: c)) by (assumption || discriminate).
      simpl app. rewrite join_cons by discriminate. reflexivity. }
  destruct a as [|x a]; [exact Hbc|].
  rewrite !(join_app (x :: a)); try discriminate.
  - rewrite Hbc. reflexivity.
  - destruct b; [congruence | discriminate].
Qed.

Lemma join_flush chunks cur rest :
  join SPACE (flush chunks cur ++ rest) = join SPACE (chunks ++ cur ++ rest).
Proof.
  destruct cur as [|x cur]; [reflexivity|].
  change (flush chunks (x :: cur)) with (chunks ++ [join SPACE (x :: cur)]).
  rewrite <- app_assoc. apply join_group. discriminate.
Qed.

Lemma word_step_join n st w rest :
  join SPACE (flat (word_step n st w) ++ rest)
  = join SPACE (flat st ++ [w] ++ rest).
Proof.
  unfold word_step, flat. destruct (_ <=? _); simpl chunks; simpl current_chunk.
  - rewrite <- !app_assoc. reflexivity.
  - rewrite <- !app_assoc. rewrite join_flush. reflexivity.
Qed.

Lemma word_loop_join n ws st rest :
  join SPACE (flat (foldl (word_step n) st ws) ++ rest)
  = join SPACE (flat st ++ ws ++ rest).
Proof.
  revert st. induction ws as [|w ws IH]; intros st; simpl; [reflexivity|].
  rewrite IH. rewrite word_step_join. reflexivity.
Qed.

Lemma sentence_step_join n st s rest :
  trimmed s -> s <> [] ->
  join SPACE (flat (sentence_step n st s) ++ rest)
  = join SPACE (flat st ++ pieces n s ++ rest).
Proof.
  intros Ht Hne. unfold sentence_step, pieces. rewrite (strip_id s Ht).
  destruct s as [|c0 s0] eqn:Es; [congruence|]. rewrite <- Es. clear Es Hne Ht c0 s0.
  destruct (_ <? _).
  - set (st1 := match current_chunk st with
                | [] => st
                | _ => Packer (flush (chunks st) (current_chunk st)) [] 0
                end).
    assert (H1 : forall r, join SPACE (chunks st1 ++ r) = join SPACE (flat st ++ r)).
    { intros r. subst st1. unfold flat. destruct (current_chunk st) eqn:E.
      - rewrite app_nil_r. reflexivity.
      - cbn [chunks]. rewrite join_flush, app_assoc. reflexivity. }
    assert (Hcur1 : current_chunk st1 = []).
    { subst st1. destruct (current_chunk st) eqn:E; [exact E | reflexivity]. }
    unfold flat at 1. cbn [chunks current_chunk]. rewrite Hcur1, app_nil_r.
    rewrite join_flush.
    rewrite app_assoc.
    change (chunks ?t ++ current_chunk ?t) with (flat t).
    rewrite word_loop_join. unfold flat at 1. cbn [chunks current_chunk].
    rewrite app_nil_r. apply H1.
  - unfold flat. destruct (_ <=? _); cbn [chunks current_chunk].
    + rewrite <- !app_assoc. reflexivity.
    + rewrite <- !app_assoc. rewrite join_flush. reflexivity.
Qed.

Lemma sentence_loop_join n ss st :
  Forall (fun s => trimmed s /\ s <> []) ss ->
  join SPACE (flat (foldl (sentence_step n) st ss))
  = join SPACE (flat st ++ concat (map (pieces n) ss)).
Proof.
  intros Hss. revert st. induction Hss as [|s ss [Ht Hne] _ IH]; intros st; simpl.
  - rewrite app_nil_r. reflexivity.
  - rewrite IH. apply sentence_step_join; assumption.
Qed.

Lemma combine_chunks_pack n ss :
  Forall (fun s => trimmed s /\ s <> []) ss ->
  combine_chunks (pack n ss) = join SPACE (concat (map (pieces n) ss)).
Proof.
  intros Hss. unfold combine_chunks, pack. cbv zeta.
  rewrite <- (app_nil_r (flush _ _)). rewrite join_flush, app_nil_r.
  change (chunks ?t ++ current_chunk ?t) with (flat t).
  rewrite sentence_loop_join by exact Hss. reflexivity.
Qed.

(** ** The shape of the sentences *)

Lemma ends_term_snoc s c : ends_term (s ++ [c]) = is_term c.
Proof.
  induction s as [|d s IH]; [reflexivity|].
  destruct s as [|e s]; [reflexivity|]. exact IH.
Qed.

Lemma ends_term_inv s :
  ends_term s = true -> exists s' t, s = s' ++ [t] /\ is_term t = true.
Proof.
  destruct s as [|d s0]; [discriminate|].
  destruct (exists_last (l := d :: s0)) as (s' & t & E); [discriminate|].
  rewrite E, ends_term_snoc. intros H. exists s', t. auto.
Qed.

Lemma space_not_term c : is_space c = true -> is_term c = false.
Proof.
  intros Hc. destruct (is_term c) eqn:Ht; [|reflexivity].
  apply is_term_not_space in Ht. congruence.
Qed.

Lemma boundary_free_cons t s :
  boundary_free (t :: s) = true -> boundary_free s = true.
Proof.
  destruct s as [|c s]; [reflexivity|]. intros H.
  change (negb (is_term t && is_space c) && boundary_free (c :: s) = true) in H.
  apply andb_prop in H. tauto.
Qed.

Lemma boundary_free_app a b :
  boundary_free (a ++ b) = true ->
  boundary_free a = true /\ boundary_free b = true.
Proof.
  induction a as [|t a IH]; intros H; [auto|].
  pose proof (boundary_free_cons _ _ H) as H'. destruct (IH H') as [Ha Hb].
  split; [|exact Hb].
  destruct a as [|c a]; [reflexivity|].
  change (negb (is_term t && is_space c) && boundary_free (c :: a ++ b) = true) in H.
  change (negb (is_term t && is_space c) && boundary_free (c :: a) = true).
  apply andb_prop in H. destruct H as [H _]. rewrite H. exact Ha.
Qed.

Lemma boundary_free_snoc cur c :
  boundary_free cur = true ->
  ends_term cur = false \/ is_space c = false ->
  boundary_free (cur ++ [c]) = true.
Proof.
  induction cur as [|t cur IH]; intros Hbf Hc; [reflexivity|].
  destruct cur as [|d cur].
  - simpl. simpl in Hc. destruct Hc as [-> | ->]; [reflexivity|].
    rewrite andb_false_r. reflexivity.
  - change (negb (is_term t && is_space d) && boundary_free ((d :: cur) ++ [c]) = true).
    change (negb (is_term t && is_space d) && boundary_free (d :: cur) = true) in Hbf.
    apply andb_prop in Hbf. destruct Hbf as [H1 H2]. rewrite H1.
    apply IH; assumption.
Qed.

Lemma boundary_free_junction cur c s :
  boundary_free (cur ++ c :: s) = true -> is_space c = true ->
  ends_term cur = false.
Proof.
  intros Hbf Hc. induction cur as [|t cur IH]; [reflexivity|].
  pose proof (boundary_free_cons _ _ Hbf) as H'.
  destruct cur as [|d cur]; [|exact (IH H')].
  simpl in Hbf. simpl. rewrite Hc, andb_true_r in Hbf.
  apply andb_prop in Hbf. destruct Hbf as [Hbf _].
  destruct (is_term t); [discriminate | reflexivity].
Qed.

Lemma mode_of_snoc cur c :
  mode_of (cur ++ [c]) = if is_term c then AfterTerm else Plain.
Proof. unfold mode_of. rewrite ends_term_snoc. reflexivity. Qed.

(** *** The scan over a text put together from sentences *)

Lemma scan_step cur c s :
  boundary_free (cur ++ c :: s) = true ->
  re_split_scan (mode_of cur) cur (c :: s)
  = re_split_scan (mode_of (cur ++ [c])) (cur ++ [c]) s.
Proof.
  intros Hbf. simpl. rewrite mode_of_snoc.
  destruct (is_space c) eqn:Hc; [|reflexivity].
  unfold mode_of at 1. rewrite (boundary_free_junction _ _ _ Hbf Hc).
  rewrite (space_not_term _ Hc). reflexivity.
Qed.

Lemma scan_piece s cur :
  boundary_free (cur ++ s) = true ->
  re_split_scan (mode_of cur) cur s = [cur ++ s].
Proof.
  revert cur. induction s as [|c s IH]; intros cur Hbf.
  - rewrite app_nil_r. reflexivity.
  - rewrite scan_step by exact Hbf.
    rewrite IH; rewrite <- app_assoc; [reflexivity | exact Hbf].
Qed.

Lemma scan_sep s cur c rest :
  boundary_free (cur ++ s) = true -> ends_term (cur ++ s) = true ->
  is_space c = true ->
  re_split_scan (mode_of cur) cur (s ++ c :: rest)
  = (cur ++ s) :: re_split_scan InSep [] rest.
Proof.
  revert cur. induction s as [|d s IH]; intros cur Hbf Hend Hc.
  - rewrite app_nil_r in *. unfold mode_of. rewrite Hend. simpl. rewrite Hc.
    reflexivity.
  - change ((d :: s) ++ c :: rest) with (d :: (s ++ c :: rest)).
    assert (E : cur ++ d :: s = (cur ++ [d]) ++ s) by (rewrite <- app_assoc; reflexivity).
    assert (Hstep : re_split_scan (mode_of cur) cur (d :: s ++ c :: rest)
                    = re_split_scan (mode_of (cur ++ [d])) (cur ++ [d]) (s ++ c :: rest)).
    { simpl. rewrite mode_of_snoc.
      destruct (is_space d) eqn:Hd; [|reflexivity].
      unfold mode_of at 1. rewrite (boundary_free_junction _ d s Hbf Hd).
      rewrite (space_not_term _ Hd). reflexivity. }
    rewrite Hstep, E. apply IH; try rewrite <- E; assumption.
Qed.

Lemma scan_insep rest :
  head_nonspace rest -> re_split_scan InSep [] rest = re_split_scan Plain [] rest.
Proof. destruct rest as [|c rest]; simpl; [reflexivity|]. intros ->. reflexivity. Qed.

Lemma join_head s ss :
  s <> [] -> head_nonspace s -> head_nonspace (join SPACE (s :: ss)).
Proof.
  intros Hne Hh. destruct s as [|c s]; [congruence|].
  destruct ss; exact Hh.
Qed.

Lemma re_split_join ss :
  sentence_list ss -> ss <> [] -> re_split_sentences (join SPACE ss) = ss.
Proof.
  induction 1 as [|s (Hne & Ht & Hbf)|s s' ss (Hne & Ht & Hbf) Hend Hss IH];
    intros Hnn.
  - congruence.
  - apply (scan_piece s []). exact Hbf.
  - change (join SPACE (s :: s' :: ss)) with (s ++ 32%N :: join SPACE (s' :: ss)).
    unfold re_split_sentences.
    rewrite (scan_sep s [] 32%N) by (assumption || reflexivity).
    rewrite scan_insep.
    + fold (re_split_sentences (join SPACE (s' :: ss))).
      rewrite IH by discriminate. reflexivity.
    + inversion Hss as [|? (Hne' & [Hh' _] & _)|? ? ? (Hne' & [Hh' _] & _)]; subst;
        apply join_head; assumption.
Qed.

Lemma sentence_list_ok ss : sentence_list ss -> Forall sentence_ok ss.
Proof.
  induction 1 as [|s Hs|s s' ss Hs He Hss IH].
  - constructor.
  - constructor; [exact Hs | constructor].
  - constructor; [exact Hs | exact IH].
Qed.

Lemma chunker_sentences_fixed ss :
  Forall sentence_ok ss ->
  List.filter (fun s => negb (is_empty s)) (map strip ss) = ss.
Proof.
  induction 1 as [|s ss (Hne & Ht & _) _ IH]; simpl; [reflexivity|].
  rewrite (strip_id s Ht), IH. destruct s; [congruence | reflexivity].
Qed.

Lemma chunker_sentences_join ss :
  sentence_list ss -> chunker_sentences (join SPACE ss) = ss.
Proof.
  intros Hss. destruct ss as [|s ss]; [reflexivity|].
  unfold chunker_sentences. rewrite re_split_join by (assumption || discriminate).
  apply chunker_sentences_fixed, sentence_list_ok, Hss.
Qed.

(** *** The sentences of any text have that shape *)

Lemma boundary_free_strip s : boundary_free s = true -> boundary_free (strip s) = true.
Proof.
  intros H. destruct (strip_decomp s) as (t & u & _ & _ & E).
  rewrite E in H. apply boundary_free_app in H. destruct H as [_ H].
  apply boundary_free_app in H. tauto.
Qed.

Lemma strip_ends_term s : ends_term s = true -> ends_term (strip s) = true.
Proof.
  intros H. destruct (ends_term_inv s H) as (s' & t & -> & Ht).
  pose proof (is_term_not_space t Ht) as Hs.
  unfold strip. rewrite lstrip_snoc by exact Hs.
  rewrite rstrip_id.
  - rewrite ends_term_snoc. exact Ht.
  - rewrite rev_app_distr. exact Hs.
Qed.

Lemma sentence_ok_strip s :
  boundary_free s = true -> strip s <> [] -> sentence_ok (strip s).
Proof.
  intros Hbf Hne. split; [exact Hne|]. split.
  - apply strip_trimmed.
  - apply boundary_free_strip, Hbf.
Qed.

Lemma sentence_list_cons s l :
  sentence_ok s -> ends_term s = true -> sentence_list l -> sentence_list (s :: l).
Proof.
  intros Hs He Hl. destruct l as [|s' l].
  - apply sentence_list_one, Hs.
  - apply sentence_list_more; assumption.
Qed.

Lemma scan_sentence_list s m cur :
  boundary_free cur = true ->
  (m = InSep /\ cur = []) \/ m = mode_of cur ->
  sentence_list
    (List.filter (fun s => negb (is_empty s)) (map strip (re_split_scan m cur s))).
Proof.
  revert m cur. induction s as [|c s IH]; intros m cur Hbf Hm.
  - simpl. destruct (strip cur) as [|c0 s0] eqn:E; simpl.
    + constructor.
    + rewrite <- E. apply sentence_list_one, sentence_ok_strip; [exact Hbf|].
      rewrite E. discriminate.
  - simpl. destruct (is_space c) eqn:Hc.
    + destruct m.
      * destruct Hm as [[Hm _]|Hm]; [discriminate|].
        assert (He : ends_term cur = false).
        { unfold mode_of in Hm. destruct (ends_term cur); [discriminate | reflexivity]. }
        apply IH.
        -- apply boundary_free_snoc; auto.
        -- right. rewrite mode_of_snoc, (space_not_term _ Hc). reflexivity.
      * destruct Hm as [[Hm _]|Hm]; [discriminate|].
        assert (He : ends_term cur = true).
        { unfold mode_of in Hm. destruct (ends_term cur); [reflexivity | discriminate]. }
        pose proof (strip_ends_term cur He) as Hse.
        simpl. destruct (strip cur) as [|c0 s0] eqn:E; [discriminate|].
        simpl. rewrite <- E. apply sentence_list_cons.
        -- apply sentence_ok_strip; [exact Hbf|]. rewrite E. discriminate.
        -- rewrite E. exact Hse.
        -- apply IH; [reflexivity | left; auto].
      * destruct Hm as [[_ Hcur]|Hm].
        -- apply IH; [exact Hbf | left; auto].
        -- unfold mode_of in Hm. destruct (ends_term cur); discriminate.
    + apply IH.
      * apply boundary_free_snoc; auto.
      * right. rewrite mode_of_snoc. reflexivity.
Qed.

Lemma chunker_sentences_list text : sentence_list (chunker_sentences text).
Proof. apply scan_sentence_list; [reflexivity | right; reflexivity]. Qed.

(** *** Sentences whose words are already one space apart *)

Lemma join_pieces n ss pre :
  Forall sentence_ok ss -> Forall (single_spaced n) ss ->
  join SPACE (pre ++ concat (map (pieces n) ss)) = join SPACE (pre ++ ss).
Proof.
  intros Hok. revert pre. induction Hok as [|s ss (Hne & Ht & _) _ IH];
    intros pre Hsp; [reflexivity|].
  inversion Hsp as [|? ? Hs Hsp']; subst. simpl.
  assert (E : join SPACE (pre ++ pieces n s ++ concat (map (pieces n) ss))
              = join SPACE (pre ++ [s] ++ concat (map (pieces n) ss))).
  { unfold pieces. destruct (Z.ltb_spec n (len s)) as [Hlong|Hshort]; [|reflexivity].
    rewrite <- (Hs Hlong) at 2. symmetry. apply join_group.
    rewrite <- (strip_id s Ht) in Hne. apply has_word_strip in Hne.
    rewrite (strip_id s Ht) in Hne. exact Hne. }
  rewrite E. rewrite app_assoc. rewrite (IH (pre ++ [s]) Hsp').
  rewrite <- app_assoc. reflexivity.
Qed.

Lemma combine_chunks_single_spaced text n :
  Forall (single_spaced n) (chunker_sentences text) ->
  combine_chunks (split_into_chunks text n) = join SPACE (chunker_sentences text).
Proof.
  intros Hsp. pose proof (sentence_list_ok _ (chunker_sentences_list text)) as Hok.
  rewrite split_into_chunks_pack, combine_chunks_pack.
  - apply (join_pieces n _ [] Hok Hsp).
  - eapply Forall_impl; [exact Hok|]. intros s (Hne & Ht & _). auto.
Qed.

(** ** The guard on blank texts *)

Lemma whitespace_only_blank text : whitespace_only text = true <-> blank text.
Proof.
  unfold whitespace_only, blank. rewrite forallb_forall, List.Forall_forall.
  reflexivity.
Qed.

Lemma guard_blank text :
  whitespace_only text = true -> is_empty text || is_empty (strip text) = true.
Proof.
  intros H. apply whitespace_only_blank in H.
  rewrite (strip_blank text H). apply orb_true_r.
Qed.

Lemma guard_not_blank text :
  whitespace_only text = false -> is_empty text || is_empty (strip text) = false.
Proof.
  intros H. destruct (is_empty text || is_empty (strip text)) eqn:E; [|reflexivity].
  assert (Hb : blank text).
  { apply orb_prop in E. destruct E as [E|E].
    - destruct text; [constructor | discriminate].
    - apply strip_nil_blank. destruct (strip text); [reflexivity | discriminate]. }
  apply whitespace_only_blank in Hb. congruence.
Qed.

(** The guard returns before anything else is looked at. *)
Lemma translate_text_guard {B : Backend} (self : TranslationTool B)
    (text target_lang : str) :
  whitespace_only text = true ->
  translate_text self text target_lang = (Return text, self).
Proof.
  intros H. unfold translate_text. rewrite (guard_blank text H). reflexivity.
Qed.

(** ** The calls of the service *)

Lemma backend_calls_app l1 l2 :
  backend_calls (l1 ++ l2) = (backend_calls l1 + backend_calls l2)%nat.
Proof. unfold backend_calls. rewrite List.filter_app, length_app. reflexivity. Qed.

Lemma length_ask {B : Backend} (s : service B) target chunks :
  length (ask s target chunks).1 = length chunks.
Proof.
  revert s. induction chunks as [|chunk rest IH]; intros s; [reflexivity|].
  simpl. destruct (respond B s target chunk) as [a s'].
  specialize (IH s'). destruct (ask s' target rest) as [answers s''].
  simpl in *. rewrite IH. reflexivity.
Qed.

Lemma backend_calls_zip target chunks answers :
  length answers = length chunks ->
  backend_calls (zip_with (BackendCall target) chunks answers) = length chunks.
Proof.
  unfold backend_calls. revert answers.
  induction chunks as [|chunk rest IH]; intros [|a answers] H;
    simpl in *; try discriminate; [reflexivity|].
  rewrite IH by congruence. reflexivity.
Qed.

(** The loop calls the service on the chunks in order: its answers are those
    of [ask]. *)
Lemma translate_chunks_ask {B} chunks (self : TranslationTool B) acc :
  translate_chunks self chunks acc
  = (acc ++ zip_with appended chunks
              (ask (remote (translator self)) (target (translator self)) chunks).1,
     {| translator :=
          {| target := target (translator self);
             remote := (ask (remote (translator self))
                            (target (translator self)) chunks).2 |};
        translation_cache := translation_cache self;
        log := log self
               ++ zip_with (BackendCall (target (translator self))) chunks
                    (ask (remote (translator self))
                         (target (translator self)) chunks).1 |}).
Proof.
  revert self acc. induction chunks as [|chunk rest IH]; intros self acc.
  - destruct self as [[t s] c l]. simpl. rewrite !app_nil_r. reflexivity.
  - simpl. unfold translate.
    destruct (respond B (remote (translator self)) (target (translator self)) chunk)
      as [a s1].
    destruct a; rewrite IH; cbn [translator target remote translation_cache log];
      destruct (ask s1 (target (translator self)) rest) as [answers s2];
      simpl; rewrite <- !app_assoc; reflexivity.
Qed.

(** The list that the loop leaves is a list of strings unless a call
    returned a value that is no string. *)
Lemma strings_appended chunks answers :
  length answers = length chunks ->
  strings (zip_with appended chunks answers)
  = if existsb no_string answers then None
    else Some (zip_with best_effort chunks answers).
Proof.
  revert answers. induction chunks as [|chunk rest IH]; intros [|a answers] H;
    simpl in *; try discriminate; [reflexivity|].
  destruct a; simpl; [|reflexivity|];
    rewrite IH by congruence; destruct (existsb no_string answers); reflexivity.
Qed.

Lemma length_py_range stop step :
  length (py_range stop step) = Z.to_nat ((stop + step - 1) / step).
Proof. unfold py_range. rewrite length_map, length_seq. reflexivity. Qed.

Lemma length_slices size text :
  length (slices size text) = Z.to_nat ((len text + size - 1) / size).
Proof. unfold slices. rewrite length_map. apply length_py_range. Qed.

Lemma evenly_spaced_single n text :
  evenly_spaced n text = true -> Forall (single_spaced n) (chunker_sentences text).
Proof.
  unfold evenly_spaced. rewrite forallb_forall. intros H.
  apply List.Forall_forall. intros s Hs Hlong.
  specialize (H s Hs). apply orb_prop in H. destruct H as [H|H].
  - apply Z.leb_le in H. lia.
  - apply bool_decide_eq_true in H. exact H.
Qed.

Lemma combine_chunks_same_sentences text n :
  Forall (single_spaced n) (chunker_sentences text) ->
  chunker_sentences (combine_chunks (split_into_chunks text n))
  = chunker_sentences text.
Proof.
  intros H. rewrite combine_chunks_single_spaced by exact H.
  apply chunker_sentences_join, chunker_sentences_list.
Qed.

(** What [translate_text] does when nothing short-cuts it and the cache has
    no entry. *)
Lemma translate_text_miss {B : Backend} (self : TranslationTool B)
    (text target_lang : str) :
  whitespace_only text = false ->
  supported target_lang = true ->
  bool_decide (target_lang = py "en") && forallb (fun c => c <? 128)%N text = false ->
  translation_cache self !! (text ++ py "_" ++ target_lang) = None ->
  translate_text self text target_lang
  = let chunks := slices 5000 text in
    let asked := ask (remote (translator self)) target_lang chunks in
    let tr := {| target := target_lang; remote := asked.2 |} in
    let key := text ++ py "_" ++ target_lang in
    let calls := zip_with (BackendCall target_lang) chunks asked.1 in
    let result := join SPACE (zip_with best_effort chunks asked.1) in
    if existsb no_string asked.1
    then (Return text,
          {| translator := tr;
             translation_cache := translation_cache self;
             log := log self ++ [CacheLookup key] ++ calls |})
    else (Return result,
          {| translator := tr;
             translation_cache := <[key := result]> (translation_cache self);
             log := log self ++ [CacheLookup key] ++ calls
                    ++ [CacheWrite key result] |}).
Proof.
  intros Ht Hs Hen Hc. unfold translate_text.
  rewrite (guard_not_blank text Ht), Hs, Hen. cbn [negb].
  cbn [record translation_cache]. rewrite Hc. cbv zeta.
  rewrite translate_chunks_ask. cbn [set_target record translator target remote
    translation_cache log app].
  unfold join_values. rewrite strings_appended by apply length_ask.
  destruct (existsb no_string _); unfold cache_write;
    cbn [translator translation_cache log]; rewrite <- ?app_assoc; reflexivity.
Qed.

(** The calls of the service on that way: one for each chunk, whatever it
    answers. *)
Lemma translate_text_miss_calls {B : Backend} (self : TranslationTool B)
    (text target_lang : str) :
  whitespace_only text = false ->
  supported target_lang = true ->
  bool_decide (target_lang = py "en") && forallb (fun c => c <? 128)%N text = false ->
  translation_cache self !! (text ++ py "_" ++ target_lang) = None ->
  backend_calls (log (translate_text self text target_lang).2)
  = (backend_calls (log self) + length (slices 5000 text))%nat.
Proof.
  intros Ht Hs Hen Hc.
  rewrite (translate_text_miss self text target_lang Ht Hs Hen Hc). cbv zeta.
  destruct (existsb no_string _); cbn [snd log];
    rewrite !backend_calls_app, backend_calls_zip by apply length_ask;
    cbn [backend_calls List.filter is_backend_call length]; lia.
Qed.

Lemma ceil_slices text :
  length (slices 5000 text) = Z.to_nat ((len text + 4999) / 5000).
Proof.
  rewrite length_slices. replace (len text + 5000 - 1) with (len text + 4999) by lia.
  reflexivity.
Qed.

(** What [translate_text] does when the cache has the entry. *)
Lemma translate_text_hit {B : Backend} (self : TranslationTool B)
    (text target_lang cached : str) :
  whitespace_only text = false ->
  supported target_lang = true ->
  bool_decide (target_lang = py "en") && forallb (fun c => c <? 128)%N text = false ->
  translation_cache self !! (text ++ py "_" ++ target_lang) = Some cached ->
  translate_text self text target_lang
  = (Return cached,
     record (record self (CacheLookup (text ++ py "_" ++ target_lang)))
            (CacheRead (text ++ py "_" ++ target_lang))).
Proof.
  intros Ht Hs Hen Hc. unfold translate_text.
  rewrite (guard_not_blank text Ht), Hs, Hen.
  cbn [negb record translation_cache]. rewrite Hc. reflexivity.
Qed.

Lemma backend_calls_hit {B : Backend} (self : TranslationTool B) key :
  backend_calls (log (record (record self (CacheLookup key)) (CacheRead key)))
  = backend_calls (log self).
Proof.
  cbn [record log]. rewrite !backend_calls_app. cbn. lia.
Qed.

(** The cache keys of two supported languages are the same only for the
    same text and the same language. *)
Lemma supported_length code : supported code = true -> length code = 2%nat.
Proof.
  unfold supported. destruct (SUPPORTED_LANGUAGES !! code) as [name|] eqn:E;
    [intros _ | discriminate].
  apply elem_of_list_to_map_2 in E.
  repeat (apply elem_of_cons in E; destruct E as [E|E];
          [injection E as -> _; reflexivity|]).
  apply elem_of_nil in E. contradiction.
Qed.

Lemma cache_key_injective text1 code1 text2 code2 :
  supported code1 = true -> supported code2 = true ->
  text1 ++ py "_" ++ code1 = text2 ++ py "_" ++ code2 ->
  text1 = text2 /\ code1 = code2.
Proof.
  intros H1 H2 E. apply supported_length in H1, H2.
  rewrite !app_assoc in E. apply app_inj_2 in E; [|congruence].
  destruct E as [E ->]. split; [|reflexivity].
  apply app_inj_2 in E; [tauto | reflexivity].
Qed.

(** * The claims *)

(** ** [split_into_chunks] *)

(** C1.  Every chunk returned by [split_into_chunks text max_chunk_size] has
    at most [max_chunk_size] characters, unless it is one single
    whitespace-delimited word of the text that is itself longer than
    [max_chunk_size]; and no word is split: the words of the chunks, in
    order, are the words of the text.  (It holds for every limit, positive or
    not.) *)
Theorem split_into_chunks_bounded (text : str) (max_chunk_size : Z) :
  Forall (fun c => len c <= max_chunk_size \/
                   (max_chunk_size < len c /\ is_word c /\ In c (str_split text)))
         (split_into_chunks text max_chunk_size)
  /\ concat (map str_split (split_into_chunks text max_chunk_size)) = str_split text.
Proof.
  split; [|apply split_into_chunks_words].
  eapply Forall_impl; [apply split_into_chunks_sizes|].
  intros c [Hle | [Hgt Hin]]; [left; exact Hle | right].
  split; [exact Hgt|]. split; [|exact Hin].
  pose proof (str_split_words text) as Hw.
  rewrite List.Forall_forall in Hw. apply Hw, Hin.
Qed.

(** A chunk over the limit: the one word that is longer than it. *)
Example split_into_chunks_long_word :
  split_into_chunks (py "go abcdefgh now") 5 = [py "go"; py "abcdefgh"; py "now"].
Proof. vm_compute. reflexivity. Qed.

(** C2, as stated, fails: in a sentence longer than the limit the whitespace
    between two words is replaced by one space, and that is no sentence
    boundary.  The text below is one sentence, and it is not the sentence of
    the joined chunks. *)
Lemma combine_chunks_changes_sentence :
  combine_chunks (split_into_chunks (py "a  b cccccc") 5) = py "a b cccccc"
  /\ chunker_sentences (py "a  b cccccc") = [py "a  b cccccc"]
  /\ chunker_sentences (combine_chunks (split_into_chunks (py "a  b cccccc") 5))
     <> chunker_sentences (py "a  b cccccc").
Proof. vm_compute. repeat split; try reflexivity. discriminate. Qed.

(** C2, amended.  The joined chunks have the whitespace-delimited words of
    the text, in the same order: only whitespace differs.  And when every
    sentence longer than the limit has its words one space apart already, the
    trimmed sentences are the same too: only the whitespace at sentence
    boundaries differs. *)
Theorem combine_chunks_same_words (text : str) (max_chunk_size : Z) :
  str_split (combine_chunks (split_into_chunks text max_chunk_size)) = str_split text
  /\ (evenly_spaced max_chunk_size text = true ->
      chunker_sentences (combine_chunks (split_into_chunks text max_chunk_size))
      = chunker_sentences text).
Proof.
  split.
  - unfold combine_chunks. rewrite str_split_join. apply split_into_chunks_words.
  - intros H. apply combine_chunks_same_sentences, evenly_spaced_single, H.
Qed.

(** A text with spaces at both ends and runs of spaces inside. *)
Lemma combine_chunks_same_words_witness :
  str_split (combine_chunks (split_into_chunks (py " one  two.   three ") 7))
  = str_split (py " one  two.   three ")
  /\ chunker_sentences (combine_chunks (split_into_chunks (py " one  two.   three ") 10))
     = chunker_sentences (py " one  two.   three ").
Proof.
  split.
  - apply (combine_chunks_same_words (py " one  two.   three ") 7).
  - apply (combine_chunks_same_words (py " one  two.   three ") 10). reflexivity.
Defined.

(** C8, as stated, fails: a text of whitespace only is not empty and has no
    chunk. *)
Lemma split_into_chunks_blank_text :
  split_into_chunks (py " ") 5 = [] /\ py " " <> [].
Proof. split; [reflexivity | discriminate]. Qed.

(** C8, amended.  [split_into_chunks] is total, and it returns no chunk
    exactly when the text has no character that is not whitespace (the empty
    text among them). *)
Theorem split_into_chunks_nil_iff (text : str) (max_chunk_size : Z) :
  split_into_chunks text max_chunk_size = [] <-> whitespace_only text = true.
Proof.
  rewrite whitespace_only_blank. split.
  - intros H. apply str_split_nil_blank.
    rewrite <- (split_into_chunks_words text max_chunk_size), H. reflexivity.
  - intros H. pose proof (split_into_chunks_words text max_chunk_size) as Hw.
    pose proof (split_into_chunks_has_word text max_chunk_size) as Hh.
    unfold str_split in Hw at 2. rewrite (split_ws_blank text H) in Hw.
    destruct Hh as [|c l Hc _]; [reflexivity|].
    simpl in Hw. apply app_eq_nil in Hw. destruct Hw as [Hw _].
    contradiction.
Qed.

(** C9, as stated, fails: the words of a sentence longer than the limit are
    joined with single spaces, the sentence gets shorter, and the second time
    it fits in one chunk. *)
Lemma rechunking_differs :
  split_into_chunks (py "a  bc") 4 = [py "a"; py "bc"]
  /\ split_into_chunks (combine_chunks (split_into_chunks (py "a  bc") 4)) 4
     = [py "a bc"].
Proof. split; reflexivity. Qed.

(** C9, amended.  When every sentence of the text longer than [N] has its
    words one space apart already (so also when no sentence is longer than
    [N]), chunking the joined chunks again gives the same chunks. *)
Theorem rechunking_idempotent (text : str) (N : Z) :
  evenly_spaced N text = true ->
  split_into_chunks (combine_chunks (split_into_chunks text N)) N
  = split_into_chunks text N.
Proof.
  intros H. apply evenly_spaced_single in H.
  rewrite (split_into_chunks_pack (combine_chunks _)).
  rewrite combine_chunks_same_sentences by exact H.
  symmetry. apply split_into_chunks_pack.
Qed.

(** A text whose first sentence is longer than the limit and evenly spaced. *)
Lemma rechunking_idempotent_witness :
  split_into_chunks
    (combine_chunks (split_into_chunks (py "  aaa bbb.   c  d. e ") 5)) 5
  = split_into_chunks (py "  aaa bbb.   c  d. e ") 5.
Proof. apply rechunking_idempotent. reflexivity. Defined.

(** ** [get_text_stats] *)

(** C3, as stated, fails: the text has 17 characters and 3 words. *)
Lemma get_text_stats_hello_not_18_4 :
  get_text_stats (py "Hello world. Bye.") <> TextStats 18 4 2.
Proof. vm_compute. discriminate. Qed.

(** C3, amended.  [get_text_stats] of "Hello world. Bye." is 17 characters,
    3 words and 2 sentences. *)
Theorem get_text_stats_hello :
  get_text_stats (py "Hello world. Bye.") = TextStats 17 3 2.
Proof. reflexivity. Qed.

(** C4.  [get_text_stats] counts every piece of the split, the empty one
    after a final terminator and whitespace too, where [split_into_chunks]
    skips the empty pieces: for "Hi. " the count is 2 and the chunker has 1
    sentence. *)
Theorem get_text_stats_counts_empty_piece :
  sentences (get_text_stats (py "Hi. ")) = 2
  /\ re_split_sentences (py "Hi. ") = [py "Hi."; []]
  /\ chunker_sentences (py "Hi. ") = [py "Hi."].
Proof. repeat split; reflexivity. Qed.

(** ** [translate_text] *)

(** C10.  For a text that is empty or has whitespace only, [translate_text]
    returns the text and leaves the tool as it was, whatever the language
    code, supported or not: no error, no look into the cache, no call of the
    service. *)
Theorem translate_text_blank {B : Backend} (self : TranslationTool B)
    (text code : str) :
  whitespace_only text = true ->
  translate_text self text code = (Return text, self).
Proof. apply translate_text_guard. Qed.

(** Two spaces and a code that is not supported. *)
Lemma translate_text_blank_witness :
  supported (py "xx") = false
  /\ translate_text (new_tool echo tt) (py "  ") (py "xx")
     = (Return (py "  "), new_tool echo tt).
Proof.
  split; [reflexivity|].
  apply (translate_text_blank (new_tool echo tt) (py "  ") (py "xx")).
  reflexivity.
Defined.

(** C5, as stated, fails: the empty text with an unsupported code is
    returned, nothing is raised. *)
Lemma translate_text_unsupported_blank :
  supported (py "xx") = false
  /\ translate_text (new_tool echo tt) (py "") (py "xx")
     = (Return (py ""), new_tool echo tt).
Proof. split; reflexivity. Qed.

(** C5, amended.  For a text with a character that is not whitespace and a
    code outside the supported languages, [translate_text] raises the
    [ValueError] and leaves the tool as it was: no call of the service. *)
Theorem translate_text_unsupported {B : Backend} (self : TranslationTool B)
    (text code : str) :
  whitespace_only text = false ->
  supported code = false ->
  translate_text self text code = (ValueError, self).
Proof.
  intros Ht Hc. unfold translate_text.
  rewrite (guard_not_blank text Ht), Hc. reflexivity.
Qed.

(** A word and a code that is not supported. *)
Lemma translate_text_unsupported_witness :
  translate_text (new_tool echo tt) (py "hello") (py "xx")
  = (ValueError, new_tool echo tt).
Proof.
  apply (translate_text_unsupported (new_tool echo tt) (py "hello") (py "xx"));
    reflexivity.
Defined.




(** The service is down: the text comes back as it is. *)
Example translate_text_service_down :
  (translate_text (new_tool down tt) (py "hello") (py "bn")).1 = Return (py "hello").
Proof. vm_compute. reflexivity. Qed.




(** The word [hello] and a service that returns [None]: the text comes back
    as it is, nothing is cached, and the second call calls the service
    again. *)
Example translate_text_none_twice :
  (translate_text (new_tool fading false) (py "hello") (py "bn")).1
  = Return (py "hello")
  /\ translation_cache (translate_text (new_tool fading false) (py "hello") (py "bn")).2
     !! (py "hello" ++ py "_" ++ py "bn") = None
  /\ backend_calls
       (log (translate_text (new_tool fading false) (py "hello") (py "bn")).2)
     = 1%nat
  /\ backend_calls
       (log (translate_text
               (translate_text (new_tool fading false) (py "hello") (py "bn")).2
               (py "hello") (py "bn")).2)
     = 2%nat.
Proof. vm_compute. repeat split. Qed.

(** * Further properties *)

(** ** The chunks sent to the service *)

Lemma py_range_scaled stop step :
  py_range stop step
  = map (fun k => Z.of_nat k * step) (seq 0 (Z.to_nat ((stop + step - 1) / step))).
Proof. reflexivity. Qed.

Lemma slices_take_drop size text :
  0 < size ->
  slices size text
  = map (fun k => take (Z.to_nat size) (drop (k * Z.to_nat size) text))
        (seq 0 (Z.to_nat ((len text + size - 1) / size))).
Proof.
  intros Hs. unfold slices, py_range. rewrite map_map.
  apply map_ext. intros k. unfold slice.
  replace (Z.of_nat k * size + size - Z.of_nat k * size) with size by lia.
  replace (Z.to_nat (Z.of_nat k * size)) with (k * Z.to_nat size)%nat by nia.
  reflexivity.
Qed.

Lemma concat_take_drop {A} (l : list A) n m :
  concat (map (fun k => take n (drop (k * n) l)) (seq 0 m)) = take (m * n) l.
Proof.
  induction m as [|m IH].
  - reflexivity.
  - rewrite seq_S, map_app, concat_app, IH. simpl.
    rewrite app_nil_r, take_take_drop. f_equal. lia.
Qed.

Lemma slices_count_covers size text :
  0 < size ->
  (length text <= Z.to_nat ((len text + size - 1) / size) * Z.to_nat size)%nat.
Proof.
  intros Hs. unfold len.
  pose proof (Z.div_mod (Z.of_nat (length text) + size - 1) size ltac:(lia)) as Hd.
  pose proof (Z.mod_pos_bound (Z.of_nat (length text) + size - 1) size Hs) as Hm.
  assert (0 <= (Z.of_nat (length text) + size - 1) / size)
    by (apply Z.div_pos; lia).
  nia.
Qed.

Lemma concat_slices size text : 0 < size -> concat (slices size text) = text.
Proof.
  intros Hs. rewrite slices_take_drop by exact Hs.
  rewrite concat_take_drop. apply take_ge. apply slices_count_covers, Hs.
Qed.

Lemma slices_bounds size text :
  0 < size -> Forall (fun c => 0 < len c <= size) (slices size text).
Proof.
  intros Hs. rewrite slices_take_drop by exact Hs.
  apply List.Forall_forall. intros c Hc. apply in_map_iff in Hc.
  destruct Hc as (k & <- & Hk). apply in_seq in Hk.
  unfold len in *. rewrite length_take, length_drop.
  pose proof (Z.div_mod (Z.of_nat (length text) + size - 1) size ltac:(lia)) as Hd.
  pose proof (Z.mod_pos_bound (Z.of_nat (length text) + size - 1) size Hs) as Hm.
  assert (0 <= (Z.of_nat (length text) + size - 1) / size)
    by (apply Z.div_pos; lia).
  nia.
Qed.

Lemma slices_short size text :
  0 < len text <= size -> slices size text = [text].
Proof.
  intros [Hpos Hle]. rewrite slices_take_drop by lia.
  replace ((len text + size - 1) / size) with 1.
  - simpl. rewrite drop_0. f_equal. apply take_ge. unfold len in *. lia.
  - apply Z.div_unique with (r := len text - 1); lia.
Qed.

(** X1.  The chunks of 5000 characters that [translate_text] sends to the
    service are the text, whole and in order: put end to end they are the
    text, none is empty and none has more than 5000 characters. *)
Theorem slices_partition (text : str) :
  concat (slices 5000 text) = text
  /\ Forall (fun chunk => 0 < len chunk <= 5000) (slices 5000 text).
Proof. split; [apply concat_slices | apply slices_bounds]; lia. Qed.

(** ** The cache of [translate_text] *)

Lemma translate_text_english {B : Backend} (self : TranslationTool B) (text : str) :
  forallb (fun c => c <? 128)%N text = true ->
  translate_text self text (py "en") = (Return text, self).
Proof.
  intros Ha. destruct (whitespace_only text) eqn:Ht.
  - apply translate_text_guard, Ht.
  - unfold translate_text. rewrite (guard_not_blank text Ht), Ha. reflexivity.
Qed.

(** The ways through [translate_text]: it returns or raises at once and
    leaves the tool as it was; or the cache has the entry; or it has not, and
    the service is called. *)
Lemma translate_text_cases {B : Backend} (self : TranslationTool B)
    (text target_lang : str) :
  (translate_text self text target_lang).2 = self
  \/ (exists cached,
        translation_cache self !! (text ++ py "_" ++ target_lang) = Some cached /\
        translate_text self text target_lang
        = (Return cached,
           record (record self (CacheLookup (text ++ py "_" ++ target_lang)))
                  (CacheRead (text ++ py "_" ++ target_lang))))
  \/ (whitespace_only text = false /\
      supported target_lang = true /\
      bool_decide (target_lang = py "en") && forallb (fun c => c <? 128)%N text = false /\
      translation_cache self !! (text ++ py "_" ++ target_lang) = None).
Proof.
  destruct (whitespace_only text) eqn:Ht.
  { left. rewrite (translate_text_guard self text target_lang Ht). reflexivity. }
  destruct (supported target_lang) eqn:Hs.
  2:{ left. unfold translate_text. rewrite (guard_not_blank text Ht), Hs. reflexivity. }
  destruct (bool_decide (target_lang = py "en") && forallb (fun c => c <? 128)%N text)
    eqn:Hen.
  { left. unfold translate_text. rewrite (guard_not_blank text Ht), Hs, Hen.
    reflexivity. }
  destruct (translation_cache self !! (text ++ py "_" ++ target_lang))
    as [cached|] eqn:Hc.
  - right. left. exists cached. split; [reflexivity|].
    apply translate_text_hit; assumption.
  - right. right. auto.
Qed.

Lemma ask_down {B : Backend} (s : service B) target chunks :
  (forall s target chunk, (respond B s target chunk).1 = Raises) ->
  existsb no_string (ask s target chunks).1 = false
  /\ zip_with best_effort chunks (ask s target chunks).1 = chunks.
Proof.
  intros Hdown. revert s. induction chunks as [|chunk rest IH]; intros s.
  - split; reflexivity.
  - simpl. pose proof (Hdown s target chunk) as H.
    destruct (respond B s target chunk) as [a s1]. simpl in H. subst a.
    destruct (IH s1) as [He Hz]. destruct (ask s1 target rest) as [answers s2].
    simpl in *. rewrite He, Hz. split; reflexivity.
Qed.

Lemma slices_nonempty text :
  whitespace_only text = false -> (0 < length (slices 5000 text))%nat.
Proof.
  intros Ht. rewrite length_slices.
  assert (0 < len text).
  { destruct text; [discriminate | unfold len; simpl; lia]. }
  assert (1 <= (len text + 5000 - 1) / 5000) by (apply Z.div_le_lower_bound; lia).
  lia.
Qed.

Lemma translate_text_cache_size {B : Backend} (self : TranslationTool B)
    (text target_lang : str) :
  translation_cache self ⊆ translation_cache (translate_text self text target_lang).2
  /\ (size (translation_cache (translate_text self text target_lang).2)
      <= size (translation_cache self) + 1)%nat.
Proof.
  destruct (translate_text_cases self text target_lang)
    as [E | [(cached & _ & E) | (Ht & Hs & Hen & Hc)]].
  - rewrite E. split; [reflexivity | lia].
  - rewrite E. cbn [snd record translation_cache]. split; [reflexivity | lia].
  - rewrite (translate_text_miss self text target_lang Ht Hs Hen Hc). cbv zeta.
    destruct (existsb no_string _); cbn [snd translation_cache].
    + split; [reflexivity | lia].
    + split; [apply insert_subseteq, Hc|].
      rewrite map_size_insert_None by exact Hc. lia.
Qed.

(** X2.  [translate_text] never changes or drops an entry of the cache, and
    adds one entry at most. *)
Theorem translate_text_cache_grows {B : Backend} (self : TranslationTool B)
    (text target_lang : str) :
  translation_cache self ⊆ translation_cache (translate_text self text target_lang).2
  /\ (size (translation_cache (translate_text self text target_lang).2)
      <= size (translation_cache self) + 1)%nat.
Proof. apply translate_text_cache_size. Qed.

(** X3.  A call for one text and language leaves no entry under the key of
    another text or of another supported language: what is cached for one
    pair is never the answer for another. *)
Theorem translate_text_cache_private {B : Backend} (self : TranslationTool B)
    (text1 lang1 text2 lang2 : str) :
  supported lang2 = true ->
  (text1, lang1) <> (text2, lang2) ->
  translation_cache self !! (text2 ++ py "_" ++ lang2) = None ->
  translation_cache (translate_text self text1 lang1).2 !! (text2 ++ py "_" ++ lang2)
  = None.
Proof.
  intros Hs2 Hne Hnone.
  destruct (translate_text_cases self text1 lang1)
    as [E | [(cached & _ & E) | (Ht & Hs & Hen & Hc)]].
  - rewrite E. exact Hnone.
  - rewrite E. exact Hnone.
  - rewrite (translate_text_miss self text1 lang1 Ht Hs Hen Hc). cbv zeta.
    destruct (existsb no_string _); cbn [snd translation_cache]; [exact Hnone|].
    rewrite lookup_insert_ne; [exact Hnone|].
    intros E. apply cache_key_injective in E; [|assumption..].
    apply Hne. destruct E as [-> ->]. reflexivity.
Qed.

Lemma translate_text_cache_private_witness :
  translation_cache
    (translate_text (new_tool echo tt) (py "x_y") (py "bn")).2
  !! (py "x" ++ py "_" ++ py "bn") = None.
Proof.
  apply (translate_text_cache_private (new_tool echo tt)
           (py "x_y") (py "bn") (py "x") (py "bn")).
  - reflexivity.
  - discriminate.
  - reflexivity.
Defined.

(** X4.  A text of ASCII characters only, asked for in English, comes back
    as it is and the tool is left as it was: the cache is not looked at and
    the service is not called. *)
Theorem translate_text_english_ascii {B : Backend} (self : TranslationTool B)
    (text : str) :
  forallb (fun c => c <? 128)%N text = true ->
  translate_text self text (py "en") = (Return text, self).
Proof. apply translate_text_english. Qed.

Lemma translate_text_english_ascii_witness :
  translate_text (new_tool down tt) (py "Good morning.") (py "en")
  = (Return (py "Good morning."), new_tool down tt).
Proof.
  apply (translate_text_english_ascii (new_tool down tt) (py "Good morning.")).
  reflexivity.
Defined.

(** X5.  After [clear_cache] a text translated before goes to the service
    again: the call after the clearing calls the service once for each chunk
    of 5000 characters of the text, and so once at least. *)
Theorem clear_cache_recomputes {B : Backend} (self : TranslationTool B)
    (text target_lang : str) :
  whitespace_only text = false ->
  supported target_lang = true ->
  bool_decide (target_lang = py "en") && forallb (fun c => c <? 128)%N text = false ->
  let first := translate_text self text target_lang in
  let second := translate_text (clear_cache first.2) text target_lang in
  backend_calls (log second.2)
  = (backend_calls (log first.2) + Z.to_nat ((len text + 4999) / 5000))%nat
  /\ (backend_calls (log first.2) < backend_calls (log second.2))%nat.
Proof.
  intros Ht Hs Hen. cbv zeta.
  set (first := translate_text self text target_lang).
  assert (Hc : translation_cache (clear_cache first.2)
               !! (text ++ py "_" ++ target_lang) = None) by apply lookup_empty.
  rewrite (translate_text_miss_calls (clear_cache first.2) text target_lang Ht Hs Hen Hc).
  cbn [log clear_cache].
  pose proof (slices_nonempty text Ht) as Hpos.
  rewrite ceil_slices in *. lia.
Qed.

Lemma clear_cache_recomputes_witness :
  backend_calls
    (log (translate_text
            (clear_cache (translate_text (new_tool echo tt) (py "hello") (py "bn")).2)
            (py "hello") (py "bn")).2)
  = (backend_calls (log (translate_text (new_tool echo tt) (py "hello") (py "bn")).2)
     + Z.to_nat ((len (py "hello") + 4999) / 5000))%nat
  /\ (backend_calls (log (translate_text (new_tool echo tt) (py "hello") (py "bn")).2)
      < backend_calls
          (log (translate_text
                  (clear_cache (translate_text (new_tool echo tt) (py "hello") (py "bn")).2)
                  (py "hello") (py "bn")).2))%nat.
Proof.
  apply (clear_cache_recomputes (new_tool echo tt) (py "hello") (py "bn"));
    reflexivity.
Defined.

(** X6.  When every call of the service raises, [translate_text] returns the
    chunks of the text joined with single spaces, for a text of up to 5000
    characters the text itself, and stores that in the cache as the
    translation: the failure is not told from a translation later. *)
Theorem translate_text_caches_failure {B : Backend} (self : TranslationTool B)
    (text target_lang : str) :
  (forall s target chunk, (respond B s target chunk).1 = Raises) ->
  whitespace_only text = false ->
  supported target_lang = true ->
  bool_decide (target_lang = py "en") && forallb (fun c => c <? 128)%N text = false ->
  translation_cache self !! (text ++ py "_" ++ target_lang) = None ->
  (translate_text self text target_lang).1 = Return (join SPACE (slices 5000 text))
  /\ translation_cache (translate_text self text target_lang).2
     !! (text ++ py "_" ++ target_lang) = Some (join SPACE (slices 5000 text))
  /\ (len text <= 5000 -> join SPACE (slices 5000 text) = text).
Proof.
  intros Hdown Ht Hs Hen Hc.
  rewrite (translate_text_miss self text target_lang Ht Hs Hen Hc). cbv zeta.
  destruct (ask_down (remote (translator self)) target_lang (slices 5000 text) Hdown)
    as [He Hz].
  rewrite He, Hz. cbn [fst snd translation_cache].
  split; [reflexivity|]. split; [apply lookup_insert_eq|].
  intros Hle. rewrite slices_short; [reflexivity|].
  split; [|exact Hle]. destruct text; [discriminate | unfold len; simpl; lia].
Qed.

Lemma translate_text_caches_failure_witness :
  (translate_text (new_tool down tt) (py "hello") (py "bn")).1
  = Return (join SPACE (slices 5000 (py "hello")))
  /\ translation_cache (translate_text (new_tool down tt) (py "hello") (py "bn")).2
     !! (py "hello" ++ py "_" ++ py "bn") = Some (join SPACE (slices 5000 (py "hello")))
  /\ (len (py "hello") <= 5000 -> join SPACE (slices 5000 (py "hello")) = py "hello").
Proof.
  apply (translate_text_caches_failure (new_tool down tt) (py "hello") (py "bn"));
    reflexivity.
Defined.

(** ** The Translate Text branch of [main] *)

Lemma translate_text_returns {B : Backend} (self : TranslationTool B)
    (text target_lang : str) :
  supported target_lang = true ->
  exists value, (translate_text self text target_lang).1 = Return value.
Proof.
  intros Hs. unfold translate_text.
  destruct (is_empty text || is_empty (strip text)); [eexists; reflexivity|].
  rewrite Hs. cbn [negb].
  destruct (bool_decide _ && _); [eexists; reflexivity|].
  cbn [record translation_cache].
  destruct (translation_cache self !! _); [eexists; reflexivity|].
  cbv zeta. destruct (translate_chunks _ _ _).
  destruct (join_values _ _); eexists; reflexivity.
Qed.

Lemma translate_text_calls_le {B : Backend} (self : TranslationTool B)
    (text target_lang : str) :
  (backend_calls (log (translate_text self text target_lang).2)
   <= backend_calls (log self) + length (slices 5000 text))%nat.
Proof.
  destruct (translate_text_cases self text target_lang)
    as [E | [(cached & _ & E) | (Ht & Hs & Hen & Hc)]].
  - rewrite E. lia.
  - rewrite E. cbn [snd]. rewrite backend_calls_hit. lia.
  - rewrite (translate_text_miss_calls self text target_lang Ht Hs Hen Hc). lia.
Qed.

Lemma slices_at_most_one text :
  len text <= 5000 -> (length (slices 5000 text) <= 1)%nat.
Proof.
  intros Hle. rewrite length_slices.
  assert ((len text + 5000 - 1) / 5000 < 2).
  { apply Z.div_lt_upper_bound; lia. }
  lia.
Qed.

Lemma translate_each_runs {B : Backend} (target_lang : str) chunks
    (self : TranslationTool B) acc :
  supported target_lang = true ->
  exists out,
    (translate_each self chunks target_lang acc).1 = Some out /\
    length out = (length acc + length chunks)%nat /\
    (size (translation_cache (translate_each self chunks target_lang acc).2)
     <= size (translation_cache self) + length chunks)%nat /\
    (Forall (fun c => len c <= 5000) chunks ->
     (backend_calls (log (translate_each self chunks target_lang acc).2)
      <= backend_calls (log self) + length chunks)%nat).
Proof.
  intros Hs. revert self acc. induction chunks as [|chunk rest IH]; intros self acc.
  - exists acc. simpl. repeat split; try lia.
  - simpl.
    destruct (translate_text_returns self chunk target_lang Hs) as [value Hv].
    pose proof (translate_text_cache_size self chunk target_lang) as [_ Hsize].
    pose proof (translate_text_calls_le self chunk target_lang) as Hcalls.
    destruct (translate_text self chunk target_lang) as [r self1].
    cbn [fst snd] in *. subst r.
    destruct (IH self1 (acc ++ [value])) as (out & Hout & Hlen & Hsz & Hbc).
    exists out. rewrite length_app in Hlen. simpl in Hlen.
    split; [exact Hout|]. split; [lia|]. split; [lia|].
    intros Hall. inversion Hall as [|? ? Hc Hrest]; subst.
    specialize (Hbc Hrest). pose proof (slices_at_most_one chunk Hc). lia.
Qed.

Lemma main_translate_eq {B : Backend} (tool : TranslationTool B)
    (text target_lang : str) :
  text <> [] ->
  main_translate tool text target_lang
  = match translate_each
            (if 1000 <? Z.of_nat (size (translation_cache tool))
             then clear_cache tool else tool)
            (split_into_chunks text 5000) target_lang [] with
    | (Some translated_chunks, tool') => (Translated translated_chunks, tool')
    | (None, tool') => (TranslationError, tool')
    end.
Proof. destruct text; [congruence | reflexivity]. Qed.

Lemma chunks_within_limit text n :
  forallb (fun w => len w <=? n) (str_split text) = true ->
  Forall (fun c => len c <= n) (split_into_chunks text n).
Proof.
  intros Hw. rewrite forallb_forall in Hw.
  eapply Forall_impl; [apply split_into_chunks_sizes|].
  intros c [Hle | [Hgt Hin]]; [exact Hle|].
  apply Hw in Hin. apply Z.leb_le in Hin. lia.
Qed.

(** X7.  With a language of the list, the loop of the Translate Text branch
    raises nothing and gives one translation for each chunk of
    [split_into_chunks(text)]; and the cache has at most 1000 entries more
    than chunks afterwards, whatever it had before. *)
Theorem main_translate_runs {B : Backend} (translation_tool : TranslationTool B)
    (text target_lang : str) :
  supported target_lang = true ->
  text <> [] ->
  exists translated_chunks tool',
    main_translate translation_tool text target_lang
    = (Translated translated_chunks, tool') /\
    length translated_chunks = length (split_into_chunks text 5000) /\
    (size (translation_cache tool')
     <= 1000 + length (split_into_chunks text 5000))%nat.
Proof.
  intros Hs Hne. rewrite (main_translate_eq _ _ _ Hne).
  set (tool := if 1000 <? _ then _ else _).
  assert (Hsize : (size (translation_cache tool) <= 1000)%nat).
  { subst tool. destruct (Z.ltb_spec 1000 (Z.of_nat (size (translation_cache translation_tool)))).
    - cbn [clear_cache translation_cache]. rewrite map_size_empty. lia.
    - lia. }
  destruct (translate_each_runs target_lang (split_into_chunks text 5000) tool [] Hs)
    as (out & Hout & Hlen & Hsz & _).
  destruct (translate_each tool (split_into_chunks text 5000) target_lang [])
    as [r tool'].
  cbn [fst snd] in *. subst r.
  exists out, tool'. split; [reflexivity|]. split; [exact Hlen | lia].
Qed.

Lemma main_translate_runs_witness :
  exists translated_chunks tool',
    main_translate (new_tool echo tt) (py "Hi there. Bye.") (py "bn")
    = (Translated translated_chunks, tool') /\
    length translated_chunks = length (split_into_chunks (py "Hi there. Bye.") 5000) /\
    (size (translation_cache tool')
     <= 1000 + length (split_into_chunks (py "Hi there. Bye.") 5000))%nat.
Proof.
  apply (main_translate_runs (new_tool echo tt) (py "Hi there. Bye.") (py "bn")).
  - reflexivity.
  - discriminate.
Defined.

(** X8.  When no word of the text has more than 5000 characters, the loop of
    the Translate Text branch calls the service once for a chunk at most:
    every chunk fits the 5000 characters [translate_text] sends at a time, so
    none is cut again. *)
Theorem main_translate_calls {B : Backend} (translation_tool : TranslationTool B)
    (text target_lang : str) :
  supported target_lang = true ->
  forallb (fun w => len w <=? 5000) (str_split text) = true ->
  Forall (fun chunk => slices 5000 chunk = [chunk]) (split_into_chunks text 5000)
  /\ (backend_calls (log (main_translate translation_tool text target_lang).2)
      <= backend_calls (log translation_tool) + length (split_into_chunks text 5000))%nat.
Proof.
  intros Hs Hw. pose proof (chunks_within_limit text 5000 Hw) as Hfit. split.
  - pose proof (split_into_chunks_has_word text 5000) as Hhw.
    rewrite List.Forall_forall in *. intros c Hc.
    apply slices_short. split; [|apply Hfit, Hc].
    specialize (Hhw c Hc). destruct c; [|unfold len; simpl; lia].
    exfalso. apply Hhw. reflexivity.
  - destruct text as [|c0 text0] eqn:Etext; [simpl; lia|]. rewrite <- Etext in *.
    rewrite main_translate_eq by (rewrite Etext; discriminate).
    set (tool := if 1000 <? _ then _ else _).
    assert (Hlog : log tool = log translation_tool).
    { subst tool. destruct (1000 <? _); reflexivity. }
    destruct (translate_each_runs target_lang (split_into_chunks text 5000) tool [] Hs)
      as (out & Hout & _ & _ & Hbc).
    specialize (Hbc Hfit).
    destruct (translate_each tool (split_into_chunks text 5000) target_lang [])
      as [r tool'].
    cbn [fst snd] in *. subst r. cbn [snd]. rewrite <- Hlog. exact Hbc.
Qed.

Lemma main_translate_calls_witness :
  Forall (fun chunk => slices 5000 chunk = [chunk])
         (split_into_chunks (py "Hi there. Bye.") 5000)
  /\ (backend_calls (log (main_translate (new_tool echo tt) (py "Hi there. Bye.") (py "bn")).2)
      <= backend_calls (log (new_tool echo tt))
         + length (split_into_chunks (py "Hi there. Bye.") 5000))%nat.
Proof.
  apply (main_translate_calls (new_tool echo tt) (py "Hi there. Bye.") (py "bn"));
    reflexivity.
Defined.

(** ** The length of the chunks *)

Lemma len_join_cons x l :
  len (join SPACE (x :: l))
  = len x + match l with [] => 0 | _ => 1 + len (join SPACE l) end.
Proof.
  destruct l as [|y l]; [simpl; lia|].
  rewrite join_cons by discriminate. rewrite !len_app.
  change (len SPACE) with 1. lia.
Qed.

Lemma len_join_nonneg l : 0 <= len (join SPACE l).
Proof. unfold len. lia. Qed.

Lemma len_join_app a b :
  a <> [] -> b <> [] ->
  len (join SPACE (a ++ b)) = len (join SPACE a) + 1 + len (join SPACE b).
Proof.
  intros Ha Hb. rewrite join_app by assumption. rewrite !len_app.
  change (len SPACE) with 1. lia.
Qed.

Lemma len_join_split_ws w s : len (join SPACE (split_ws w s)) <= len w + len s.
Proof.
  revert w. induction s as [|c s IH]; intros w.
  - simpl. destruct w; simpl; len_lia.
  - simpl split_ws. destruct (is_space c).
    + specialize (IH []).
      destruct w as [|d w].
      * len_lia.
      * rewrite len_join_cons. destruct (split_ws [] s); len_lia.
    + specialize (IH (w ++ [c])). rewrite len_app in IH. len_lia.
Qed.

Lemma len_join_str_split s : len (join SPACE (str_split s)) <= len s.
Proof. pose proof (len_join_split_ws [] s) as H. exact H. Qed.

Lemma re_split_scan_nonempty m cur s : re_split_scan m cur s <> [].
Proof.
  revert m cur. induction s as [|c s IH]; intros m cur; simpl; [discriminate|].
  destruct (is_space c); [destruct m|]; try apply IH. discriminate.
Qed.

Lemma len_join_scan m cur s :
  len (join SPACE (re_split_scan m cur s)) <= len cur + len s.
Proof.
  revert m cur. induction s as [|c s IH]; intros m cur.
  - simpl. len_lia.
  - simpl re_split_scan. destruct (is_space c).
    + destruct m.
      * specialize (IH Plain (cur ++ [c])). rewrite len_app in IH. len_lia.
      * rewrite len_join_cons. specialize (IH InSep []).
        destruct (re_split_scan InSep [] s); len_lia.
      * specialize (IH InSep cur). len_lia.
    + specialize (IH (if is_term c then AfterTerm else Plain) (cur ++ [c])).
      rewrite len_app in IH. len_lia.
Qed.

Lemma len_strip s : len (strip s) <= len s.
Proof.
  destruct (strip_decomp s) as (t & u & _ & _ & E).
  rewrite E at 2. rewrite !len_app. len_lia.
Qed.

Lemma len_join_trimmed l :
  len (join SPACE (List.filter (fun s => negb (is_empty s)) (map strip l)))
  <= len (join SPACE l).
Proof.
  induction l as [|x l IH]; [simpl; lia|].
  simpl map. simpl List.filter.
  rewrite (len_join_cons x l).
  destruct (strip x) as [|c0 s0] eqn:E; simpl negb; cbv iota.
  - destruct l; [simpl in *; len_lia | len_lia].
  - rewrite <- E. rewrite len_join_cons. pose proof (len_strip x) as Hx.
    destruct (List.filter _ (map strip l)) eqn:F.
    + destruct l; len_lia.
    + destruct l; [discriminate | len_lia].
Qed.

Lemma len_join_sentences text :
  len (join SPACE (chunker_sentences text)) <= len text.
Proof.
  unfold chunker_sentences. etransitivity; [apply len_join_trimmed|].
  apply (len_join_scan Plain [] text).
Qed.

Lemma pieces_nonempty n s : sentence_ok s -> pieces n s <> [].
Proof.
  intros (Hne & Ht & _). unfold pieces. destruct (n <? len s); [|discriminate].
  rewrite <- (strip_id s Ht) in Hne. apply has_word_strip in Hne.
  rewrite (strip_id s Ht) in Hne. exact Hne.
Qed.

Lemma len_join_pieces_one n s : len (join SPACE (pieces n s)) <= len s.
Proof.
  unfold pieces. destruct (n <? len s); [apply len_join_str_split | simpl; lia].
Qed.

Lemma len_join_pieces n ss :
  Forall sentence_ok ss ->
  len (join SPACE (concat (map (pieces n) ss))) <= len (join SPACE ss).
Proof.
  induction 1 as [|s ss Hs Hss IH]; [simpl; lia|].
  simpl map. simpl concat. rewrite len_join_cons.
  pose proof (len_join_nonneg (pieces n s)) as H0.
  pose proof (len_join_pieces_one n s) as H1.
  pose proof (pieces_nonempty n s Hs) as Hne.
  destruct ss as [|s' ss'].
  - simpl. rewrite app_nil_r. lia.
  - assert (Hrest : concat (map (pieces n) (s' :: ss')) <> []).
    { simpl. inversion Hss as [|? ? Hs' _]; subst.
      pose proof (pieces_nonempty n s' Hs') as H'.
      destruct (pieces n s'); [congruence | discriminate]. }
    rewrite len_join_app by assumption. lia.
Qed.

Lemma len_combine_chunks text n :
  len (combine_chunks (split_into_chunks text n)) <= len text.
Proof.
  pose proof (sentence_list_ok _ (chunker_sentences_list text)) as Hok.
  rewrite split_into_chunks_pack, combine_chunks_pack.
  - etransitivity; [apply len_join_pieces, Hok | apply len_join_sentences].
  - eapply Forall_impl; [exact Hok|]. intros s (Hne & Ht & _). auto.
Qed.

(** X9.  Chunking never makes a text longer: the chunks of a text joined with
    single spaces have at most as many characters as the text. *)
Theorem combine_chunks_not_longer (text : str) (max_chunk_size : Z) :
  len (combine_chunks (split_into_chunks text max_chunk_size)) <= len text.
Proof. apply len_combine_chunks. Qed.

(** ** The chunks are trimmed *)

Lemma is_word_tidy w : is_word w -> tidy w.
Proof.
  intros [Hne Hw]. split; [exact Hne|]. split.
  - destruct Hw; [exact I | assumption].
  - apply Forall_rev in Hw. destruct Hw; [exact I | assumption].
Qed.

Lemma strip_tidy s : strip s <> [] -> tidy (strip s).
Proof. intros Hne. split; [exact Hne | apply strip_trimmed]. Qed.

Lemma head_nonspace_app a b : a <> [] -> head_nonspace a -> head_nonspace (a ++ b).
Proof. destruct a; [congruence | simpl; auto]. Qed.

Lemma join_nonempty x l : x <> [] -> join SPACE (x :: l) <> [].
Proof. destruct x; [congruence|]. destruct l; discriminate. Qed.

Lemma join_tidy l : l <> [] -> Forall tidy l -> tidy (join SPACE l).
Proof.
  intros Hne Hl. induction Hl as [|x l [Hx [Hh Hr]] Hl IH]; [congruence|].
  destruct l as [|y l].
  - simpl. repeat split; assumption.
  - destruct IH as (Hjn & Hjh & Hjr); [discriminate|].
    split; [apply join_nonempty, Hx|]. split.
    + apply join_head; assumption.
    + assert (Hrn : rev (join SPACE (y :: l)) <> []).
      { intros E. apply Hjn. apply (f_equal (@rev _)) in E.
        rewrite rev_involutive in E. exact E. }
      rewrite join_cons by discriminate. rewrite !rev_app_distr.
      apply head_nonspace_app.
      * destruct (rev (join SPACE (y :: l))); [congruence | discriminate].
      * apply head_nonspace_app; assumption.
Qed.

Lemma tidy_flush st :
  tidy_packer st -> Forall tidy (flush (chunks st) (current_chunk st)).
Proof.
  intros [Hc Hcur]. apply Forall_flush; [exact Hc|].
  intros Hne. apply join_tidy; assumption.
Qed.

Lemma word_step_tidy n st w :
  tidy_packer st -> is_word w -> tidy_packer (word_step n st w).
Proof.
  intros Hst Hw. pose proof (tidy_flush st Hst) as Hfl.
  apply is_word_tidy in Hw. destruct Hst as [Hc Hcur]. unfold word_step.
  destruct (_ <=? _); split; simpl.
  - exact Hc.
  - apply Forall_app. split; [exact Hcur | constructor; [exact Hw | constructor]].
  - exact Hfl.
  - constructor; [exact Hw | constructor].
Qed.

Lemma sentence_step_tidy n st s :
  tidy_packer st -> tidy_packer (sentence_step n st s).
Proof.
  intros Hst. pose proof (tidy_flush st Hst) as Hfl.
  unfold sentence_step.
  destruct (strip s) as [|c0 s0] eqn:Es; [exact Hst|].
  assert (Hts : tidy (strip s)).
  { apply strip_tidy. rewrite Es. discriminate. }
  rewrite <- Es in *. clear Es c0 s0.
  destruct Hst as [Hc Hcur].
  destruct (_ <? _).
  - set (st1 := match current_chunk st with
                | [] => st
                | _ => Packer (flush (chunks st) (current_chunk st)) [] 0
                end).
    assert (H1 : Forall tidy (chunks st1) /\ current_chunk st1 = []).
    { subst st1. destruct (current_chunk st) eqn:E.
      - rewrite E. auto.
      - cbn [chunks current_chunk]. auto. }
    destruct H1 as [Hc1 Hcur1].
    set (tmp := foldl _ _ _).
    assert (Htmp : tidy_packer tmp).
    { subst tmp. apply (foldl_invariant tidy_packer _ is_word).
      - intros a b. apply word_step_tidy.
      - apply str_split_words.
      - split; simpl; [exact Hc1 | constructor]. }
    split; simpl; [apply tidy_flush; exact Htmp|].
    rewrite Hcur1. constructor.
  - destruct (_ <=? _); split; simpl.
    + exact Hc.
    + apply Forall_app. split; [exact Hcur | constructor; [exact Hts | constructor]].
    + exact Hfl.
    + constructor; [exact Hts | constructor].
Qed.

Lemma split_into_chunks_tidy text n : Forall tidy (split_into_chunks text n).
Proof.
  unfold split_into_chunks. destruct text as [|c text]; [constructor|].
  cbv zeta. apply tidy_flush.
  apply (foldl_invariant tidy_packer _ (fun _ => True)).
  - intros a b Ha _. apply sentence_step_tidy. exact Ha.
  - apply List.Forall_forall. trivial.
  - split; constructor.
Qed.

(** X10.  No chunk is empty and no chunk starts or ends with whitespace:
    [strip] leaves every chunk as it is. *)
Theorem split_into_chunks_trimmed (text : str) (max_chunk_size : Z) :
  Forall (fun chunk => chunk <> [] /\ strip chunk = chunk)
         (split_into_chunks text max_chunk_size).
Proof.
  eapply Forall_impl; [apply split_into_chunks_tidy|].
  intros c [Hne Ht]. split; [exact Hne | apply strip_id, Ht].
Qed.

(** ** A text shorter than the limit *)

Lemma len_join_prefix a b : len (join SPACE a) <= len (join SPACE (a ++ b)).
Proof.
  destruct a as [|x a]; [simpl; len_lia|].
  destruct b as [|y b]; [rewrite app_nil_r; lia|].
  rewrite len_join_app by discriminate.
  pose proof (len_join_nonneg (y :: b)). lia.
Qed.

Lemma len_join_last cur s : len s <= len (join SPACE (cur ++ [s])).
Proof.
  destruct cur as [|x cur]; [simpl; lia|].
  rewrite len_join_snoc by discriminate.
  pose proof (len_join_nonneg (x :: cur)). lia.
Qed.

Lemma sentence_loop_fits n ss cur size :
  Forall sentence_ok ss ->
  (cur = [] /\ size = 0) \/ (cur <> [] /\ size = len (join SPACE cur) + 1) ->
  len (join SPACE (cur ++ ss)) + 1 <= n ->
  exists size',
    foldl (sentence_step n) (Packer [] cur size) ss = Packer [] (cur ++ ss) size'.
Proof.
  intros Hok. revert cur size.
  induction Hok as [|s ss (Hne & Ht & _) _ IH]; intros cur size Hsize Hfit.
  - exists size. rewrite app_nil_r. reflexivity.
  - assert (E : cur ++ s :: ss = (cur ++ [s]) ++ ss)
      by (rewrite <- app_assoc; reflexivity).
    rewrite E in Hfit.
    pose proof (len_join_prefix (cur ++ [s]) ss) as Hpre.
    pose proof (len_join_last cur s) as Hlast.
    assert (Hnew : size + len s + 1 = len (join SPACE (cur ++ [s])) + 1).
    { destruct Hsize as [[-> ->] | [Hc ->]].
      - simpl. lia.
      - rewrite len_join_snoc by exact Hc. lia. }
    assert (Hstep : sentence_step n (Packer [] cur size) s
                    = Packer [] (cur ++ [s]) (size + len s + 1)).
    { unfold sentence_step. rewrite (strip_id s Ht).
      destruct s as [|c0 s0]; [congruence|]. cbv zeta iota.
      destruct (Z.ltb_spec n (len (c0 :: s0))); [lia|].
      cbn [current_size current_chunk chunks].
      destruct (Z.leb_spec (size + len (c0 :: s0) + 1) n); [reflexivity | lia]. }
    simpl foldl. rewrite Hstep, E. apply IH; [|exact Hfit].
    right. split; [|exact Hnew]. destruct cur; discriminate.
Qed.

Lemma pack_fits n ss :
  Forall sentence_ok ss -> ss <> [] -> len (join SPACE ss) + 1 <= n ->
  pack n ss = [join SPACE ss].
Proof.
  intros Hok Hne Hfit.
  destruct (sentence_loop_fits n ss [] 0 Hok) as [size' E]; [auto | exact Hfit|].
  unfold pack. cbv zeta. rewrite E. cbn [chunks current_chunk app].
  destruct ss; [congruence | reflexivity].
Qed.

(** X11.  A text with a character that is not whitespace and with fewer
    characters than the limit is one chunk: its trimmed sentences joined with
    single spaces.  (With as many characters as the limit there can be two
    chunks.) *)
Theorem split_into_chunks_short_text (text : str) (max_chunk_size : Z) :
  whitespace_only text = false ->
  len text < max_chunk_size ->
  split_into_chunks text max_chunk_size = [join SPACE (chunker_sentences text)].
Proof.
  intros Ht Hlen. rewrite split_into_chunks_pack.
  pose proof (len_join_sentences text) as Hle.
  apply pack_fits; [apply sentence_list_ok, chunker_sentences_list | | lia].
  intros E. pose proof (split_into_chunks_words text max_chunk_size) as Hw.
  rewrite split_into_chunks_pack, E in Hw. simpl in Hw. symmetry in Hw.
  apply str_split_nil_blank, whitespace_only_blank in Hw. congruence.
Qed.

Lemma split_into_chunks_short_text_witness :
  split_into_chunks (py " Hi  there.   Bye. ") 20
  = [join SPACE (chunker_sentences (py " Hi  there.   Bye. "))].
Proof.
  apply (split_into_chunks_short_text (py " Hi  there.   Bye. ") 20); reflexivity.
Defined.

(** Four characters and a limit of four: two chunks. *)
Example split_into_chunks_at_the_limit :
  split_into_chunks (py "a. b") 4 = [py "a."; py "b"].
Proof. reflexivity. Qed.

(** ** The sentence count of [get_text_stats] *)

Lemma filter_length_le_list {A} (f : A -> bool) l :
  (length (List.filter f l) <= length l)%nat.
Proof. induction l as [|x l IH]; simpl; [lia|]. destruct (f x); simpl; lia. Qed.

Lemma strip_snoc_nonempty x c : is_space c = false -> strip (x ++ [c]) <> [].
Proof.
  intros Hc E. apply strip_nil_blank in E. apply Forall_app in E.
  destruct E as [_ E]. inversion E; congruence.
Qed.

Lemma strip_ends_term_nonempty cur : ends_term cur = true -> strip cur <> [].
Proof.
  intros He E. apply strip_ends_term in He. rewrite E in He. discriminate.
Qed.

Lemma scan_count m cur s :
  (m = InSep /\ cur = []) \/ m = mode_of cur ->
  (length (re_split_scan m cur s)
   <= length (List.filter (fun s => negb (is_empty s))
                (map strip (re_split_scan m cur s))) + 1)%nat.
Proof.
  revert m cur. induction s as [|c s IH]; intros m cur Hm.
  - simpl. lia.
  - simpl re_split_scan. destruct (is_space c) eqn:Hc.
    + destruct m.
      * apply IH. right. rewrite mode_of_snoc, (space_not_term _ Hc). reflexivity.
      * destruct Hm as [[Hm _]|Hm]; [discriminate|].
        assert (He : ends_term cur = true).
        { unfold mode_of in Hm. destruct (ends_term cur); [reflexivity | discriminate]. }
        apply strip_ends_term_nonempty in He.
        specialize (IH InSep [] (or_introl (conj eq_refl eq_refl))).
        simpl. destruct (strip cur); [congruence|]. simpl. lia.
      * apply IH. exact Hm.
    + apply IH. right. rewrite mode_of_snoc. reflexivity.
Qed.

Lemma re_split_scan_cons m cur c s :
  re_split_scan m cur (c :: s)
  = if is_space c
    then match m with
         | Plain => re_split_scan Plain (cur ++ [c]) s
         | AfterTerm => cur :: re_split_scan InSep [] s
         | InSep => re_split_scan InSep cur s
         end
    else re_split_scan (if is_term c then AfterTerm else Plain) (cur ++ [c]) s.
Proof. reflexivity. Qed.

Lemma scan_count_exact s m cur :
  (m = InSep /\ cur = []) \/ m = mode_of cur ->
  s <> [] -> head_nonspace (rev s) ->
  length (re_split_scan m cur s)
  = length (List.filter (fun s => negb (is_empty s))
              (map strip (re_split_scan m cur s))).
Proof.
  revert m cur. induction s as [|c s IH]; intros m cur Hm Hne Hlast; [congruence|].
  destruct s as [|d s].
  - simpl in Hlast. simpl. rewrite Hlast. simpl.
    pose proof (strip_snoc_nonempty cur c Hlast) as Hs.
    destruct (strip (cur ++ [c])); [congruence | reflexivity].
  - assert (Hlast' : head_nonspace (rev (d :: s))).
    { simpl rev in Hlast. simpl rev.
      destruct (rev s ++ [d]) eqn:E; [destruct (rev s); discriminate | exact Hlast]. }
    assert (Hne' : d :: s <> []) by discriminate.
    rewrite re_split_scan_cons.
    destruct (is_space c) eqn:Hc.
    + destruct m.
      * apply IH; [|assumption..].
        right. rewrite mode_of_snoc, (space_not_term _ Hc). reflexivity.
      * destruct Hm as [[Hm _]|Hm]; [discriminate|].
        assert (He : ends_term cur = true).
        { unfold mode_of in Hm. destruct (ends_term cur); [reflexivity | discriminate]. }
        apply strip_ends_term_nonempty in He.
        specialize (IH InSep [] (or_introl (conj eq_refl eq_refl)) Hne' Hlast').
        cbn [map List.filter length]. destruct (strip cur); [congruence|].
        cbn [is_empty negb length]. rewrite IH. reflexivity.
      * apply IH; assumption.
    + apply IH; [|assumption..]. right. rewrite mode_of_snoc. reflexivity.
Qed.

(** X12.  The sentence count of [get_text_stats] is the number of sentences
    [split_into_chunks] works on, or one more; it is that number when the text
    ends with a character that is not whitespace. *)
Theorem get_text_stats_sentences (text : str) :
  Z.of_nat (length (chunker_sentences text)) <= sentences (get_text_stats text)
  /\ sentences (get_text_stats text) <= Z.of_nat (length (chunker_sentences text)) + 1
  /\ (text <> [] -> head_nonspace (rev text) ->
      sentences (get_text_stats text) = Z.of_nat (length (chunker_sentences text))).
Proof.
  destruct text as [|c0 text0] eqn:E; [simpl; repeat split; try lia; congruence|].
  rewrite <- E. assert (Hs : sentences (get_text_stats text)
                              = Z.of_nat (length (re_split_sentences text))).
  { rewrite E. reflexivity. }
  rewrite Hs. unfold chunker_sentences, re_split_sentences.
  pose proof (filter_length_le_list (fun s => negb (is_empty s))
                (map strip (re_split_scan Plain [] text))) as Hle.
  rewrite length_map in Hle.
  pose proof (scan_count Plain [] text (or_intror eq_refl)) as Hge.
  split; [lia|]. split; [lia|].
  intros Hne Hlast. f_equal.
  apply (scan_count_exact text Plain []); [right; reflexivity | assumption..].
Qed.

Lemma get_text_stats_sentences_witness :
  Z.of_nat (length (chunker_sentences (py "One. Two!  Three")))
  <= sentences (get_text_stats (py "One. Two!  Three"))
  /\ sentences (get_text_stats (py "One. Two!  Three"))
     <= Z.of_nat (length (chunker_sentences (py "One. Two!  Three"))) + 1
  /\ sentences (get_text_stats (py "One. Two!  Three"))
     = Z.of_nat (length (chunker_sentences (py "One. Two!  Three"))).
Proof.
  destruct (get_text_stats_sentences (py "One. Two!  Three")) as (H1 & H2 & H3).
  split; [exact H1|]. split; [exact H2|].
  apply H3; [discriminate | reflexivity].
Defined.

(** ** [process_batch] *)

Lemma process_batch_map texts n :
  process_batch texts n
  = map (fun text => (text, split_into_chunks text n, get_text_stats text)) texts.
Proof.
  unfold process_batch.
  assert (H : forall acc,
             foldl (fun results text =>
                      results ++ [(text, split_into_chunks text n, get_text_stats text)])
                   acc texts
             = acc ++ map (fun text => (text, split_into_chunks text n,
                                        get_text_stats text)) texts).
  { induction texts as [|t texts IH]; intros acc; simpl.
    - rewrite app_nil_r. reflexivity.
    - rewrite IH, <- app_assoc. reflexivity. }
  apply (H []).
Qed.

Lemma get_text_stats_words text :
  words (get_text_stats text) = Z.of_nat (length (str_split text)).
Proof. destruct text; reflexivity. Qed.

Lemma get_text_stats_characters text : characters (get_text_stats text) = len text.
Proof. destruct text; reflexivity. Qed.

Lemma length_concat_ge {A B} (f : A -> list B) l :
  Forall (fun x => f x <> []) l -> (length l <= length (concat (map f l)))%nat.
Proof.
  induction 1 as [|x l Hx _ IH]; simpl; [lia|].
  rewrite length_app. destruct (f x); [congruence | simpl; lia].
Qed.

(** X13.  [process_batch] gives, for each text and in the order of the
    texts, chunks and statistics that agree: the word count is the number of
    words in the chunks, there are no more chunks than words, and the chunks
    joined with single spaces have no more characters than the character
    count. *)
Theorem process_batch_consistent (texts : list str) (max_chunk_size : Z) :
  map (fun r => r.1.1) (process_batch texts max_chunk_size) = texts
  /\ Forall (fun r =>
               words r.2 = Z.of_nat (length (concat (map str_split r.1.2)))
               /\ Z.of_nat (length r.1.2) <= words r.2
               /\ len (combine_chunks r.1.2) <= characters r.2)
            (process_batch texts max_chunk_size).
Proof.
  rewrite process_batch_map. split.
  - rewrite map_map. simpl. apply map_id.
  - apply List.Forall_forall. intros r Hr. apply in_map_iff in Hr.
    destruct Hr as (text & <- & _). cbn [fst snd].
    rewrite get_text_stats_words, get_text_stats_characters.
    rewrite split_into_chunks_words. split; [reflexivity|]. split.
    + pose proof (length_concat_ge str_split (split_into_chunks text max_chunk_size)
                    (split_into_chunks_has_word text max_chunk_size)) as H.
      rewrite split_into_chunks_words in H. lia.
    + apply len_combine_chunks.
Qed.

(** ** The defaults of [add_documents] *)

Lemma py_inj s1 s2 : py s1 = py s2 -> s1 = s2.
Proof.
  unfold py. intros H.
  assert (Hl : list_ascii_of_string s1 = list_ascii_of_string s2).
  { revert H. generalize (list_ascii_of_string s1) (list_ascii_of_string s2).
    induction l as [|a l IH]; intros [|b l'] H; simpl in H; try discriminate.
    - reflexivity.
    - injection H as Hab Hl. f_equal; [|apply IH, Hl].
      rewrite <- (ascii_N_embedding a), <- (ascii_N_embedding b), Hab. reflexivity. }
  rewrite <- (string_of_list_ascii_of_string s1),
          <- (string_of_list_ascii_of_string s2), Hl. reflexivity.
Qed.

Lemma default_id_inj i j :
  py "doc_" ++ str_of_nat i = py "doc_" ++ str_of_nat j -> i = j.
Proof.
  intros H. apply app_inv_head in H. apply py_inj in H.
  apply (inj pretty) in H. exact H.
Qed.

(** X14.  Called without [metadatas] and [ids], [add_documents] hands the
    collection one metadata and one id for each document, the ids of one
    call all different; the ids number the documents of the call from 0, so
    a second call repeats the ids of the first. *)
Theorem add_documents_defaults (docs docs' : list str) :
  length (metadatas (add_documents docs None None)) = length docs
  /\ length (ids (add_documents docs None None)) = length docs
  /\ NoDup (ids (add_documents docs None None))
  /\ ((length docs <= length docs')%nat ->
      ids (add_documents docs None None)
      = take (length docs) (ids (add_documents docs' None None))).
Proof.
  cbn [add_documents metadatas ids]. rewrite !length_map, !length_seq.
  split; [reflexivity|]. split; [reflexivity|]. split.
  - assert (Hinj : Inj (=) (=) (fun i => py "doc_" ++ str_of_nat i))
      by (intros i j; apply default_id_inj).
    exact (NoDup_fmap_2 (fun i => py "doc_" ++ str_of_nat i) _ (NoDup_seq 0 (length docs))).
  - intros Hle.
    replace (length docs') with (length docs + (length docs' - length docs))%nat by lia.
    rewrite seq_app, map_app, take_app_length'; [reflexivity|].
    rewrite length_map, length_seq. reflexivity.
Qed.

Lemma add_documents_defaults_witness :
  length (metadatas (add_documents [py "a"; py "b"] None None)) = 2%nat
  /\ length (ids (add_documents [py "a"; py "b"] None None)) = 2%nat
  /\ NoDup (ids (add_documents [py "a"; py "b"] None None))
  /\ ids (add_documents [py "a"; py "b"] None None)
     = take 2 (ids (add_documents [py "x"; py "y"; py "z"] None None)).
Proof.
  destruct (add_documents_defaults [py "a"; py "b"] [py "x"; py "y"; py "z"])
    as (H1 & H2 & H3 & H4).
  split; [exact H1|]. split; [exact H2|]. split; [exact H3|].
  apply H4. simpl. lia.
Defined.

(** The ids of a call begin with [doc_0]. *)
Example add_documents_first_id :
  ids (add_documents [py "one text"] None None) = [py "doc_0"].
Proof. reflexivity. Qed.

(** ** The text of a page *)

Example splitlines_crlf :
  splitlines (py "a" ++ [13; 10]%N ++ py "b" ++ [10; 13]%N ++ py "c" ++ [10]%N)
  = [py "a"; py "b"; []; py "c"].
Proof. reflexivity. Qed.

Example split_double_space_three :
  split_double_space (py "a   b    c") = [py "a"; py " b"; []; py "c"].
Proof. reflexivity. Qed.

Lemma is_linebreak_space c : is_linebreak c = true -> is_space c = true.
Proof.
  unfold is_linebreak. intros H.
  repeat (apply orb_prop in H; destruct H as [H|H]);
    apply N.eqb_eq in H; subst c; reflexivity.
Qed.

Lemma str_split_cons_space c s : is_space c = true -> str_split (c :: s) = str_split s.
Proof. intros Hc. unfold str_split. simpl. rewrite Hc. reflexivity. Qed.

Lemma splitlines_scan_words after_cr cur s :
  (after_cr = true -> cur = []) ->
  concat (map str_split (splitlines_scan after_cr cur s)) = str_split (cur ++ s).
Proof.
  revert after_cr cur. induction s as [|c s IH]; intros after_cr cur Hcr.
  - simpl. rewrite app_nil_r. destruct cur; [reflexivity|]. simpl.
    rewrite app_nil_r. reflexivity.
  - simpl splitlines_scan.
    destruct (after_cr && (c =? 10)%N) eqn:E.
    + apply andb_prop in E. destruct E as [-> E]. apply N.eqb_eq in E. subst c.
      rewrite IH by discriminate. rewrite (Hcr eq_refl). simpl.
      rewrite str_split_cons_space by reflexivity. reflexivity.
    + destruct (is_linebreak c) eqn:Hl.
      * apply is_linebreak_space in Hl. simpl.
        rewrite IH by reflexivity. simpl.
        unfold str_split. rewrite split_ws_sep by exact Hl. reflexivity.
      * rewrite IH by discriminate. rewrite <- app_assoc. reflexivity.
Qed.

Lemma split_spaces_scan_words skip cur s :
  (skip = true -> cur = [] /\ starts_with_space s = true) ->
  concat (map str_split (split_spaces_scan skip cur s)) = str_split (cur ++ s).
Proof.
  revert skip cur. induction s as [|c s IH]; intros skip cur Hskip.
  - simpl. rewrite !app_nil_r. reflexivity.
  - simpl split_spaces_scan. destruct skip.
    + destruct (Hskip eq_refl) as [-> Hc]. simpl in Hc. apply N.eqb_eq in Hc. subst c.
      rewrite IH by discriminate. simpl.
      rewrite str_split_cons_space by reflexivity. reflexivity.
    + destruct ((c =? 32)%N && starts_with_space s) eqn:E.
      * apply andb_prop in E. destruct E as [Ec Es]. apply N.eqb_eq in Ec. subst c.
        simpl. rewrite IH by auto. simpl.
        unfold str_split. rewrite split_ws_sep by reflexivity. reflexivity.
      * rewrite IH by discriminate. rewrite <- app_assoc. reflexivity.
Qed.

Lemma str_split_join_newline l :
  str_split (join NEWLINE l) = concat (map str_split l).
Proof.
  induction l as [|x l IH]; [reflexivity|].
  destruct l as [|y l].
  - simpl. rewrite app_nil_r. reflexivity.
  - change (join NEWLINE (x :: y :: l)) with (x ++ 10%N :: join NEWLINE (y :: l)).
    unfold str_split at 1. rewrite split_ws_sep by reflexivity.
    fold (str_split x). fold (str_split (join NEWLINE (y :: l))).
    rewrite IH. reflexivity.
Qed.

Lemma words_filter_nonempty l :
  concat (map str_split (List.filter (fun s => negb (is_empty s)) l))
  = concat (map str_split l).
Proof.
  induction l as [|x l IH]; [reflexivity|].
  simpl. destruct x; simpl; rewrite IH; reflexivity.
Qed.

Lemma words_map_strip l :
  concat (map str_split (map strip l)) = concat (map str_split l).
Proof.
  induction l as [|x l IH]; [reflexivity|].
  simpl. rewrite str_split_strip, IH. reflexivity.
Qed.

Lemma words_concat_map (f : str -> list str) l :
  (forall x, concat (map str_split (f x)) = str_split x) ->
  concat (map str_split (concat (map f l))) = concat (map str_split l).
Proof.
  intros Hf. induction l as [|x l IH]; [reflexivity|].
  simpl. rewrite map_app, concat_app, Hf, IH. reflexivity.
Qed.

(** X15.  [extract_text_from_url] changes whitespace only: the text it
    returns has the words of the text of the page, in the same order. *)
Theorem extract_text_from_url_words (text : str) :
  str_split (extract_text_from_url (Some text)) = str_split text.
Proof.
  unfold extract_text_from_url. cbv zeta.
  rewrite str_split_join_newline, words_filter_nonempty, words_map_strip.
  rewrite words_concat_map.
  - rewrite words_map_strip. apply (splitlines_scan_words false [] text). discriminate.
  - intros x. apply (split_spaces_scan_words false [] x). discriminate.
Qed.

Lemma well_spaced_cons a s : well_spaced (a :: s) = true -> well_spaced s = true.
Proof.
  destruct s as [|b s]; [reflexivity|]. intros H.
  change (good_pair a b && well_spaced (b :: s) = true) in H.
  apply andb_prop in H. tauto.
Qed.

Lemma well_spaced_app_inv x y :
  well_spaced (x ++ y) = true -> well_spaced x = true /\ well_spaced y = true.
Proof.
  induction x as [|a x IH]; intros H; [auto|].
  pose proof (well_spaced_cons _ _ H) as H'. destruct (IH H') as [Hx Hy].
  split; [|exact Hy].
  destruct x as [|b x]; [reflexivity|].
  change (good_pair a b && well_spaced (b :: x ++ y) = true) in H.
  change (good_pair a b && well_spaced (b :: x) = true).
  apply andb_prop in H. destruct H as [H _]. rewrite H. exact Hx.
Qed.

Lemma well_spaced_app x y :
  well_spaced x = true -> well_spaced y = true ->
  (forall x' a b y', x = x' ++ [a] -> y = b :: y' -> good_pair a b = true) ->
  well_spaced (x ++ y) = true.
Proof.
  induction x as [|a x IH]; intros Hx Hy Hj; [exact Hy|].
  destruct x as [|b x].
  - destruct y as [|c y]; [reflexivity|].
    change (good_pair a c && well_spaced (c :: y) = true).
    rewrite (Hj [] a c y eq_refl eq_refl). exact Hy.
  - change (good_pair a b && well_spaced ((b :: x) ++ y) = true).
    change (good_pair a b && well_spaced (b :: x) = true) in Hx.
    apply andb_prop in Hx. destruct Hx as [Hab Hx]. rewrite Hab.
    apply IH; [exact Hx | exact Hy|].
    intros x' a' b' y' Ex Ey. apply (Hj (a :: x') a' b' y'); [|exact Ey].
    simpl. rewrite Ex. reflexivity.
Qed.

Lemma well_spaced_strip s : well_spaced s = true -> well_spaced (strip s) = true.
Proof.
  intros H. destruct (strip_decomp s) as (t & u & _ & _ & E).
  rewrite E in H. apply well_spaced_app_inv in H. destruct H as [_ H].
  apply well_spaced_app_inv in H. tauto.
Qed.

Lemma Forall_strip (P : char -> Prop) s : Forall P s -> Forall P (strip s).
Proof.
  intros H. destruct (strip_decomp s) as (t & u & _ & _ & E).
  rewrite E in H. apply Forall_app in H. destruct H as [_ H].
  apply Forall_app in H. tauto.
Qed.

Lemma good_pair_plain a b :
  a <> 10%N -> b <> 10%N -> ((a =? 32) && (b =? 32))%N = false ->
  good_pair a b = true.
Proof.
  intros Ha Hb H. unfold good_pair. rewrite H.
  apply N.eqb_neq in Ha, Hb. rewrite Ha, Hb, andb_false_r. reflexivity.
Qed.

Lemma splitlines_scan_no_newline after_cr cur s :
  Forall (fun c => c <> 10%N) cur ->
  Forall (Forall (fun c => c <> 10%N)) (splitlines_scan after_cr cur s).
Proof.
  revert after_cr cur. induction s as [|c s IH]; intros after_cr cur Hcur.
  - simpl. destruct cur; [constructor | constructor; [exact Hcur | constructor]].
  - simpl. destruct (after_cr && (c =? 10)%N); [apply IH, Hcur|].
    destruct (is_linebreak c) eqn:Hl.
    + constructor; [exact Hcur | apply IH; constructor].
    + apply IH. apply Forall_app. split; [exact Hcur|].
      constructor; [|constructor]. intros ->. discriminate.
Qed.

(** What the scan for two spaces keeps true of the piece it is at. *)
Lemma split_spaces_scan_clean skip cur s :
  well_spaced cur = true ->
  Forall (fun c => c <> 10%N) (cur ++ s) ->
  (skip = true -> cur = [] /\ starts_with_space s = true) ->
  (skip = false -> forall cur', cur = cur' ++ [32%N] -> starts_with_space s = false) ->
  Forall (fun p => well_spaced p = true /\ Forall (fun c => c <> 10%N) p)
         (split_spaces_scan skip cur s).
Proof.
  revert skip cur. induction s as [|c s IH]; intros skip cur Hws Hnl Hskip Hend.
  - simpl. rewrite app_nil_r in Hnl. constructor; [auto | constructor].
  - simpl split_spaces_scan. destruct skip.
    + destruct (Hskip eq_refl) as [-> _].
      apply IH; [reflexivity | | discriminate |].
      * simpl in Hnl. inversion Hnl; assumption.
      * intros _ cur' E. destruct cur'; discriminate.
    + apply Forall_app in Hnl. destruct Hnl as [Hcur Hrest].
      inversion Hrest as [|? ? Hc Hs]; subst.
      destruct ((c =? 32)%N && starts_with_space s) eqn:E.
      * apply andb_prop in E. destruct E as [_ Es].
        constructor; [auto|].
        apply IH; [reflexivity | exact Hs | auto |]. discriminate.
      * apply IH.
        -- apply well_spaced_app; [exact Hws | reflexivity|].
           intros x' a b y' Ex Ey. injection Ey as <- _.
           apply good_pair_plain; [|exact Hc|].
           ++ rewrite Ex in Hcur. apply Forall_app in Hcur.
              destruct Hcur as [_ Ha]. inversion Ha; assumption.
           ++ destruct (a =? 32)%N eqn:Ea; [|reflexivity].
              apply N.eqb_eq in Ea. subst a.
              specialize (Hend eq_refl x' Ex). simpl in Hend. rewrite Hend. reflexivity.
        -- rewrite <- app_assoc. apply Forall_app. split; [exact Hcur|].
           constructor; assumption.
        -- discriminate.
        -- intros _ cur' Ecur. apply app_inj_tail in Ecur. destruct Ecur as [_ ->].
           simpl in E. exact E.
Qed.

Lemma split_double_space_clean line :
  Forall (fun c => c <> 10%N) line ->
  Forall (fun p => well_spaced p = true /\ Forall (fun c => c <> 10%N) p)
         (split_double_space line).
Proof.
  intros H. apply split_spaces_scan_clean; [reflexivity | exact H | discriminate|].
  intros _ cur' E. destruct cur'; discriminate.
Qed.

(** A chunk of the cleaned text. *)
Lemma join_newline_cons x l :
  l <> [] -> join NEWLINE (x :: l) = x ++ 10%N :: join NEWLINE l.
Proof. destruct l; [congruence | reflexivity]. Qed.

Lemma join_newline_clean l :
  Forall (fun p => tidy p /\ well_spaced p = true) l ->
  well_spaced (join NEWLINE l) = true /\ trimmed (join NEWLINE l)
  /\ (l <> [] -> join NEWLINE l <> []).
Proof.
  induction 1 as [|x l [[Hne [Hh Hr]] Hw] Hl IH].
  - simpl. repeat split; congruence.
  - destruct l as [|y l].
    + simpl. split; [exact Hw|]. split; [split; assumption|]. intros _. exact Hne.
    + destruct IH as (IHw & [IHh IHr] & IHn). specialize (IHn ltac:(discriminate)).
      rewrite join_newline_cons by discriminate.
      set (rest := join NEWLINE (y :: l)) in *.
      assert (Hrest : exists b rest', rest = b :: rest' /\ is_space b = false).
      { destruct rest as [|b rest']; [congruence|]. exists b, rest'. auto. }
      destruct Hrest as (b & rest' & Erest & Hb).
      split; [|split; [split|]].
      * apply well_spaced_app; [exact Hw | |].
        -- rewrite Erest.
           change (good_pair 10%N b && well_spaced (b :: rest') = true).
           rewrite <- Erest, IHw, andb_true_r.
           unfold good_pair. rewrite Hb. simpl.
           destruct (b =? 10)%N eqn:Eb; [|reflexivity].
           apply N.eqb_eq in Eb. subst b. discriminate.
        -- intros x' a b' y' Ex Ey. injection Ey as <- _.
           assert (Ha : is_space a = false).
           { rewrite Ex, rev_app_distr in Hr. exact Hr. }
           assert (Ea : (a =? 10)%N = false).
           { destruct (a =? 10)%N eqn:Ea; [|reflexivity].
             apply N.eqb_eq in Ea. subst a. discriminate. }
           unfold good_pair. rewrite Ha, Ea.
           change (10 =? 32)%N with false. rewrite andb_false_r. reflexivity.
      * destruct x; [congruence | exact Hh].
      * change (x ++ 10%N :: rest) with (x ++ [10%N] ++ rest).
        rewrite !rev_app_distr.
        assert (Hrn : rev rest <> []).
        { intros E. apply IHn. apply (f_equal (@rev _)) in E.
          rewrite rev_involutive in E. exact E. }
        apply head_nonspace_app.
        -- intros E. apply app_eq_nil in E. destruct E as [E _]. exact (Hrn E).
        -- apply head_nonspace_app; assumption.
      * intros _. destruct x; [congruence | simpl; discriminate].
Qed.

Lemma extract_chunks_clean text :
  Forall (fun p => tidy p /\ well_spaced p = true)
    (List.filter (fun chunk => negb (is_empty chunk))
       (map strip (concat (map split_double_space (map strip (splitlines text)))))).
Proof.
  apply List.Forall_forall. intros p Hp.
  apply List.filter_In in Hp. destruct Hp as [Hp Hne].
  apply in_map_iff in Hp. destruct Hp as (q & <- & Hq).
  apply in_concat in Hq. destruct Hq as (ps & Hps & Hq).
  apply in_map_iff in Hps. destruct Hps as (line & <- & Hline).
  apply in_map_iff in Hline. destruct Hline as (raw & <- & Hraw).
  pose proof (splitlines_scan_no_newline false [] text ltac:(constructor)) as Hnl.
  rewrite List.Forall_forall in Hnl. specialize (Hnl raw Hraw).
  pose proof (split_double_space_clean (strip raw) (Forall_strip _ _ Hnl)) as Hcl.
  rewrite List.Forall_forall in Hcl. destruct (Hcl q Hq) as [Hw _].
  split.
  - apply strip_tidy. destruct (strip q); [discriminate | discriminate].
  - apply well_spaced_strip, Hw.
Qed.

(** X16.  In the text [extract_text_from_url] returns no two spaces stand
    side by side and no line feed stands beside whitespace (no line is empty,
    none starts or ends with whitespace), and the text neither starts nor
    ends with whitespace; when fetching the page failed the text is empty. *)
Theorem extract_text_from_url_clean (page_text : option str) :
  well_spaced (extract_text_from_url page_text) = true
  /\ strip (extract_text_from_url page_text) = extract_text_from_url page_text
  /\ extract_text_from_url None = [].
Proof.
  destruct page_text as [text|]; [|repeat split].
  unfold extract_text_from_url. cbv zeta.
  destruct (join_newline_clean _ (extract_chunks_clean text)) as (Hw & Ht & _).
  split; [exact Hw|]. split; [apply strip_id, Ht | reflexivity].
Qed.

Example extract_text_from_url_page :
  extract_text_from_url
    (Some (py "  Title  " ++ [13; 10; 10]%N ++ py " First   line.  Second " ++ [10]%N))
  = py "Title" ++ [10]%N ++ py "First" ++ [10]%N ++ py "line." ++ [10]%N ++ py "Second".
Proof. reflexivity. Qed.

(** ** [format_stats] *)

Example format_thousands_million :
  format_thousands 1234567 = py "1,234,567"
  /\ format_thousands 999 = py "999"
  /\ format_thousands 1000 = py "1,000"
  /\ format_thousands (-12345) = py "-12,345".
Proof. vm_compute. repeat split. Qed.

Lemma filter_cons_if {A} (f : A -> bool) x l :
  List.filter f (x :: l) = if f x then x :: List.filter f l else List.filter f l.
Proof. reflexivity. Qed.

Lemma filter_group_thousands k l :
  List.filter no_comma (group_thousands k l) = List.filter no_comma l.
Proof.
  revert k. induction l as [|d l IH]; intros k; [reflexivity|].
  destruct l as [|e l].
  - destruct k as [|[|[|k]]]; reflexivity.
  - destruct k as [|[|[|k]]].
    + change (group_thousands 0 (d :: e :: l)) with (d :: group_thousands 1 (e :: l)).
      rewrite !(filter_cons_if no_comma d), IH. reflexivity.
    + change (group_thousands 1 (d :: e :: l)) with (d :: group_thousands 2 (e :: l)).
      rewrite !(filter_cons_if no_comma d), IH. reflexivity.
    + change (group_thousands 2 (d :: e :: l))
        with (d :: 44%N :: group_thousands 0 (e :: l)).
      rewrite !(filter_cons_if no_comma d), (filter_cons_if no_comma 44%N), IH.
      reflexivity.
    + change (group_thousands (S (S (S k))) (d :: e :: l))
        with (d :: group_thousands (S (S (S (S k)))) (e :: l)).
      rewrite !(filter_cons_if no_comma d), IH. reflexivity.
Qed.

Lemma pretty_N_char_no_comma x : no_comma (N_of_ascii (pretty_N_char x)) = true.
Proof. unfold pretty_N_char. repeat case_match; reflexivity. Qed.

Lemma pretty_N_go_no_comma x s :
  forallb no_comma (py s) = true -> forallb no_comma (py (pretty_N_go x s)) = true.
Proof.
  revert s. induction (N.lt_wf_0 x) as [x _ IH]. intros s Hs.
  destruct (decide (0 < x)%N) as [Hx|Hx].
  - rewrite pretty_N_go_step by exact Hx. apply IH.
    + apply N.div_lt; [exact Hx | reflexivity].
    + change (py (String (pretty_N_char (x `mod` 10)) s))
        with (N_of_ascii (pretty_N_char (x `mod` 10)) :: py s).
      simpl. rewrite pretty_N_char_no_comma. exact Hs.
  - assert (x = 0%N) as -> by lia. rewrite pretty_N_go_0. exact Hs.
Qed.

Lemma digits_no_comma n : forallb no_comma (digits n) = true.
Proof.
  unfold digits, pretty, pretty_N. destruct (decide (n = 0%N)); [reflexivity|].
  apply pretty_N_go_no_comma. reflexivity.
Qed.

Lemma filter_format_thousands n :
  List.filter no_comma (format_thousands n) = str_of_int n.
Proof.
  assert (H : List.filter no_comma
                (rev (group_thousands 0 (rev (digits (Z.abs_N n)))))
              = digits (Z.abs_N n)).
  { rewrite List.filter_rev, filter_group_thousands, <- List.filter_rev, rev_involutive.
    apply List.forallb_filter_id, digits_no_comma. }
  unfold format_thousands, str_of_int. cbv zeta.
  destruct (n <? 0); [simpl; rewrite H; reflexivity | exact H].
Qed.

(** X17.  The numbers [format_stats] shows are the numbers of the
    statistics: with the commas taken out, the text is the three labels, each
    followed by [str] of its count. *)
Theorem format_stats_numbers (stats : text_stats) :
  List.filter no_comma (format_stats stats)
  = py "Characters: " ++ str_of_int (characters stats)
    ++ py " | Words: " ++ str_of_int (words stats)
    ++ py " | Sentences: " ++ str_of_int (sentences stats).
Proof.
  unfold format_stats. rewrite !List.filter_app, !filter_format_thousands.
  reflexivity.
Qed.
